(** * geoguessr-helper: the filter engine and the hashbang codec of [js/app.js]

    A shallow embedding of the logic of [js/app.js]: the facet table, the
    filter state (one insertion-ordered [Set] per facet), the match test
    [matchesAllFilters], [render] and the views it feeds, the hashbang codec
    ([serializeStateToHash], [parseHashToState]), the country modal
    ([showCountryModal]), the translation function, [slug] and the theme.

    Conventions.
    - A JavaScript string is a [string]: the bytes of its UTF-8 form.  All
      strings in play are well formed (the dataset is JSON, the fragment comes
      from [window.location.hash]), so this loses nothing, and the library
      functions that work on UTF-8 octets ([encodeURIComponent],
      [decodeURIComponent], [URLSearchParams]) become functions on bytes.
    - A JavaScript object used as a dictionary is a [gmap] of its own
      properties, keyed by strings; [metas] is the list of its entries, in
      the order [Object.entries] gives them.  Where the script reads such an
      object at a key it does not choose ([metas[code]], [trMap.ui[key]],
      [TILE_URLS[theme]], [state[key]] for the key of a checkbox), the read
      also finds the members every object inherits from [Object.prototype].
    - The values of the dataset are strings and arrays of strings; the tables
      of a translation file hold strings.
    - What the browser decides and the script does not (the case mappings of
      characters outside ASCII, the text of a built-in function, the calls
      [Array.prototype.sort] makes to its comparator) is a parameter, [Host].
    - A [Set] is a duplicate-free list in insertion order.
    - A call that may throw returns a completion; code that mutates the
      globals runs in a small state-and-exception monad over [App]. *)

From Stdlib Require Import NArith Ascii Bool Lia.
From stdpp Require Import base option list gmap strings.

Local Open Scope N_scope.
Local Open Scope stdpp_scope.
(** ** Characters *)

Definition char_code (c : ascii) : N := N_of_ascii c.

Definition in_range (lo hi : N) (c : ascii) : bool :=
  (lo <=? char_code c) && (char_code c <=? hi).

Definition is_digit (c : ascii) : bool := in_range 48 57 c.
Definition is_upper_alpha (c : ascii) : bool := in_range 65 90 c.
Definition is_lower_alpha (c : ascii) : bool := in_range 97 122 c.

Definition is_alnum (c : ascii) : bool :=
  is_digit c || is_upper_alpha c || is_lower_alpha c.

Definition char_in (cs : list ascii) (c : ascii) : bool :=
  existsb (Ascii.eqb c) cs.

(** ** Exceptions *)

Inductive JsError := TypeError | URIError.

Inductive Completion (A : Type) :=
  | Normal (a : A)
  | Throw (e : JsError).
Arguments Normal {A} a.
Arguments Throw {A} e.
(** ** Objects *)

(** The members every object inherits from [Object.prototype] in a browser.
    All of them are truthy: eleven functions, and the accessor [__proto__],
    which reads as [Object.prototype] itself. *)
Definition object_prototype_names : list string :=
  [ "constructor"; "hasOwnProperty"; "isPrototypeOf"; "propertyIsEnumerable";
    "toLocaleString"; "toString"; "valueOf"; "__defineGetter__";
    "__defineSetter__"; "__lookupGetter__"; "__lookupSetter__"; "__proto__" ].

Definition inherited (k : string) : bool :=
  bool_decide (k ∈ object_prototype_names).

(** [obj[k]], for [obj] made by a literal or by [JSON.parse]: an own property,
    failing that an inherited member, failing that [undefined]. *)
Inductive Looked (A : Type) :=
  | Own (a : A)
  | Inherited (k : string)
  | Undefined.
Arguments Own {A} a.
Arguments Inherited {A} k.
Arguments Undefined {A}.

Definition js_get {A} (obj : gmap string A) (k : string) : Looked A :=
  match obj !! k with
  | Some a => Own a
  | None => if inherited k then Inherited k else Undefined
  end.
(** ** Data model *)

(** [const FACETS = [ { key: "cameras", type: "array" }, ... ]] *)
Record Facet := { key : string; type : string }.

Definition FACETS : list Facet :=
  [ {| key := "cameras"; type := "array" |};
    {| key := "driving"; type := "array" |};
    {| key := "roadLine"; type := "array" |};
    {| key := "flagColor"; type := "array" |};
    {| key := "flagPattern"; type := "array" |};
    {| key := "alphabet"; type := "array" |};
    {| key := "scenery"; type := "array" |};
    {| key := "uniqueLetter"; type := "array" |};
    {| key := "years"; type := "array" |} ].

(** A property of a country record: a string or an array of strings.  An
    absent property is a failed lookup ([undefined]). *)
Inductive JsValue :=
  | Scalar (s : string)
  | Sequence (arr : list string).

(** A country record and the dataset ([metas], as its entries). *)
Abbreviation Country := (gmap string JsValue).
Abbreviation Metas := (list (string * Country)).

(** The record stored under [k] in the dataset. *)
Fixpoint metas_own (m : Metas) (k : string) : option Country :=
  match m with
  | [] => None
  | (k', c) :: rest => if bool_decide (k' = k) then Some c else metas_own rest k
  end.

(** A member of [Object.prototype] read as a record: a function has a [name]
    (the key it is stored under; [Object] for [constructor]) and none of the
    facets; [Object.prototype], which [__proto__] reads as, has neither. *)
Definition member_record (k : string) : Country :=
  if bool_decide (k = "__proto__") then ∅
  else {[ "name" := Scalar (if bool_decide (k = "constructor") then "Object" else k) ]}.

(** [metas[k]]: the record stored under [k]; failing that, the member of
    [Object.prototype] called [k]; failing that, [undefined]. *)
Definition metas_get (m : Metas) (k : string) : option Country :=
  match metas_own m k with
  | Some c => Some c
  | None => if inherited k then Some (member_record k) else None
  end.

(** *** [Set] *)

Abbreviation JsSet := (list string).

Definition set_size (s : JsSet) : nat := length s.
Definition set_has (s : JsSet) (v : string) : bool := bool_decide (v ∈ s).
Definition set_add (s : JsSet) (v : string) : JsSet :=
  if set_has s v then s else s ++ [v].
Definition set_delete (s : JsSet) (v : string) : JsSet :=
  filter (λ x, x ≠ v) s.
Definition set_clear (s : JsSet) : JsSet := [].

(** [const state = {}]: selected filters per facet. *)
Abbreviation State := (gmap string JsSet).

(** The loop of [boot]: [FACETS.forEach((f) => { state[f.key] = new Set(); })]. *)
Definition init_state (st : State) : State :=
  foldl (λ acc f, <[key f := []]> acc) st FACETS.
(** ** Matching *)

(** [!val] is false exactly on the truthy values: a non-empty string, and any
    array (the empty one too). *)
Definition truthy (val : option JsValue) : bool :=
  match val with
  | None => false
  | Some (Scalar s) => negb (bool_decide (s = ""))
  | Some (Sequence _) => true
  end.

(** [val.includes(chosen)] *)
Definition includes (arr : list string) (chosen : string) : bool :=
  bool_decide (chosen ∈ arr).

(** One turn of the loop of [matchesAllFilters], for a facet whose selection
    [sel] is [state[facet.key]] and whose value [val] is [country[facet.key]]:
    [true] when the loop goes on to the next facet, [false] when it returns
    [false]. *)
Definition facet_passes (sel : JsSet) (val : option JsValue) : bool :=
  if bool_decide (set_size sel = 0%nat) then true
  else if negb (truthy val) then false
  else match val with
       | Some (Sequence arr) => forallb (includes arr) sel
       | Some (Scalar s) => set_has sel s
       | None => false
       end.

Fixpoint matches_from (facets : list Facet) (st : State) (country : Country)
  : Completion bool :=
  match facets with
  | [] => Normal true
  | facet :: rest =>
      match st !! key facet with
      | None => Throw TypeError
      | Some sel =>
          if facet_passes sel (country !! key facet)
          then matches_from rest st country
          else Normal false
      end
  end.

Definition matchesAllFilters (st : State) (country : Country) : Completion bool :=
  matches_from FACETS st country.

(** [{ code, ...country }] *)
Definition match_record (code : string) (country : Country) : Country :=
  country ∪ {[ "code" := Scalar code ]}.

(** The first loop of [render], over [Object.entries(metas)]. *)
Fixpoint render_matches (entries : Metas) (st : State)
  : Completion (list Country) :=
  match entries with
  | [] => Normal []
  | (code, country) :: rest =>
      match matchesAllFilters st country with
      | Throw e => Throw e
      | Normal b =>
          match render_matches rest st with
          | Throw e => Throw e
          | Normal ms =>
              Normal (if b then match_record code country :: ms else ms)
          end
      end
  end.
(** ** Strings *)

Fixpoint startsWith (s prefix : string) {struct prefix} : bool :=
  match prefix, s with
  | "", _ => true
  | String p prefix', String c s' => Ascii.eqb c p && startsWith s' prefix'
  | String _ _, "" => false
  end.

(** [s.slice(n)] for [0 <= n]. *)
Fixpoint slice (s : string) (n : nat) {struct n} : string :=
  match n, s with
  | O, _ => s
  | S n', String _ s' => slice s' n'
  | S _, "" => ""
  end.

(** [s.split(sep)] for a one-character separator. *)
Fixpoint split (s : string) (sep : ascii) : list string :=
  match s with
  | "" => [""]
  | String c s' =>
      if Ascii.eqb c sep then "" :: split s' sep
      else match split s' sep with
           | piece :: pieces => String c piece :: pieces
           | [] => [String c ""]
           end
  end.

(** [pieces.join(sep)] *)
Fixpoint join (pieces : list string) (sep : string) : string :=
  match pieces with
  | [] => ""
  | [piece] => piece
  | piece :: rest => piece +:+ sep +:+ join rest sep
  end.

(** [hash.replace(/&/g, "&")] *)
Fixpoint replace_amp (s : string) : string :=
  match s with
  | "" => ""
  | String c s' =>
      if Ascii.eqb c "&" then "&" +:+ replace_amp s' else String c (replace_amp s')
  end.

(** Do all the characters of [s] satisfy [P]? *)
Fixpoint forall_chars (P : ascii → bool) (s : string) : bool :=
  match s with
  | "" => true
  | String c s' => P c && forall_chars P s'
  end.

Definition ascii_only (s : string) : bool :=
  forall_chars (λ c, char_code c <? 128) s.

Definition upper_char (c : ascii) : ascii :=
  if is_lower_alpha c then ascii_of_N (char_code c - 32) else c.

Fixpoint upper_ascii (s : string) : string :=
  match s with
  | "" => ""
  | String c s' => String (upper_char c) (upper_ascii s')
  end.

Definition lower_char (c : ascii) : ascii :=
  if is_upper_alpha c then ascii_of_N (char_code c + 32) else c.

Fixpoint lower_ascii (s : string) : string :=
  match s with
  | "" => ""
  | String c s' => String (lower_char c) (lower_ascii s')
  end.

(** [a || b], for [a] a string, [null] or [undefined]. *)
Definition or_else (a : option string) (b : string) : string :=
  match a with
  | Some s => if bool_decide (s = "") then b else s
  | None => b
  end.
(** ** Percent-encoding *)

Definition hex_digit (n : N) : ascii :=
  ascii_of_N (if n <? 10 then 48 + n else 55 + n).

Definition hex_value (c : ascii) : option N :=
  if is_digit c then Some (char_code c - 48)
  else if in_range 65 70 c then Some (char_code c - 55)
  else if in_range 97 102 c then Some (char_code c - 87)
  else None.

Definition percent_escape (c : ascii) : string :=
  String "%" (String (hex_digit (char_code c / 16))
             (String (hex_digit (char_code c mod 16)) "")).

(** The characters [encodeURIComponent] leaves alone: letters, digits and
    [- _ . ! ~ * ' ( )]. *)
Definition uriUnescaped (c : ascii) : bool :=
  is_alnum c || char_in ["-"; "_"; "."; "!"; "~"; "*"; "'"; "("; ")"]%char c.

(** [encodeURIComponent(s)]: every octet outside the unescaped set becomes
    [%XX], with upper-case hexadecimal digits. *)
Fixpoint encodeURIComponent (s : string) : string :=
  match s with
  | "" => ""
  | String c s' =>
      (if uriUnescaped c then String c "" else percent_escape c)
      +:+ encodeURIComponent s'
  end.

(** Is [bs] the UTF-8 form of one code point that takes two, three or four
    octets?  (No overlong forms, no surrogates, nothing above U+10FFFF.) *)
Definition utf8_sequence (bs : list ascii) : bool :=
  match bs with
  | [b0; b1] => in_range 194 223 b0 && in_range 128 191 b1
  | [b0; b1; b2] =>
      in_range 224 239 b0
      && in_range (if char_code b0 =? 224 then 160 else 128)
                  (if char_code b0 =? 237 then 159 else 191) b1
      && in_range 128 191 b2
  | [b0; b1; b2; b3] =>
      in_range 240 244 b0
      && in_range (if char_code b0 =? 240 then 144 else 128)
                  (if char_code b0 =? 244 then 143 else 191) b1
      && in_range 128 191 b2 && in_range 128 191 b3
  | _ => false
  end.

(** [decodeURIComponent], in two passes.  First the escapes are read: a [%]
    must be followed by two hexadecimal digits. *)
Inductive UriToken :=
  | Lit (c : ascii)
  | Esc (b : ascii)
  | Malformed.

Fixpoint uri_tokens (s : string) : list UriToken :=
  match s with
  | "" => []
  | String c s' =>
      if Ascii.eqb c "%" then
        match s' with
        | String h1 (String h2 s'') =>
            match hex_value h1, hex_value h2 with
            | Some x, Some y => Esc (ascii_of_N (16 * x + y)) :: uri_tokens s''
            | _, _ => [Malformed]
            end
        | _ => [Malformed]
        end
      else Lit c :: uri_tokens s'
  end.

Definition string_of_bytes (bs : list ascii) : string :=
  foldr String "" bs.

(** Then the octets are checked: an escaped octet below 128 stands for itself;
    a lead octet with two, three or four leading one bits must be followed by
    as many escaped octets as it announces, the whole being the UTF-8 form of
    a code point; anything else is a [URIError]. *)
Fixpoint uri_decode_tokens (ts : list UriToken) : Completion string :=
  let continue (bs : list ascii) (rest : Completion string) :=
    if utf8_sequence bs then
      match rest with
      | Normal d => Normal (string_of_bytes bs +:+ d)
      | Throw e => Throw e
      end
    else Throw URIError in
  match ts with
  | [] => Normal ""
  | Malformed :: _ => Throw URIError
  | Lit c :: ts' =>
      match uri_decode_tokens ts' with
      | Normal d => Normal (String c d)
      | Throw e => Throw e
      end
  | Esc b0 :: ts' =>
      if char_code b0 <? 128 then
        match uri_decode_tokens ts' with
        | Normal d => Normal (String b0 d)
        | Throw e => Throw e
        end
      else if in_range 192 223 b0 then
        match ts' with
        | Esc b1 :: r => continue [b0; b1] (uri_decode_tokens r)
        | _ => Throw URIError
        end
      else if in_range 224 239 b0 then
        match ts' with
        | Esc b1 :: Esc b2 :: r => continue [b0; b1; b2] (uri_decode_tokens r)
        | _ => Throw URIError
        end
      else if in_range 240 247 b0 then
        match ts' with
        | Esc b1 :: Esc b2 :: Esc b3 :: r =>
            continue [b0; b1; b2; b3] (uri_decode_tokens r)
        | _ => Throw URIError
        end
      else Throw URIError
  end.

Definition decodeURIComponent (s : string) : Completion string :=
  uri_decode_tokens (uri_tokens s).
(** ** [URLSearchParams] *)

(** Percent-decoding of the URL standard: an escape that is not followed by
    two hexadecimal digits is kept as it is. *)
Fixpoint percent_decode (s : string) : string :=
  match s with
  | "" => ""
  | String c s' =>
      if Ascii.eqb c "%" then
        match s' with
        | String h1 (String h2 s'') =>
            match hex_value h1, hex_value h2 with
            | Some x, Some y => String (ascii_of_N (16 * x + y)) (percent_decode s'')
            | _, _ => String c (percent_decode s')
            end
        | _ => String c (percent_decode s')
        end
      else String c (percent_decode s')
  end.

(** U+FFFD, which replaces every ill-formed part. *)
Definition replacement_character : string :=
  string_of_bytes [ascii_of_N 239; ascii_of_N 191; ascii_of_N 189].

(** "UTF-8 decode without BOM" of the Encoding standard, read back as octets.
    [seen] holds the octets of the code point being read, [needed] how many
    are still to come, [lo] and [hi] the bounds on the next one. *)
Fixpoint utf8_decode (s seen : string) (needed : nat) (lo hi : N) : string :=
  match s with
  | "" => match needed with O => "" | S _ => replacement_character end
  | String b s' =>
      let first :=
        if char_code b <? 128 then String b (utf8_decode s' "" 0 128 191)
        else if in_range 194 223 b then
          utf8_decode s' (String b "") 1 128 191
        else if in_range 224 239 b then
          utf8_decode s' (String b "") 2
            (if char_code b =? 224 then 160 else 128)
            (if char_code b =? 237 then 159 else 191)
        else if in_range 240 244 b then
          utf8_decode s' (String b "") 3
            (if char_code b =? 240 then 144 else 128)
            (if char_code b =? 244 then 143 else 191)
        else replacement_character +:+ utf8_decode s' "" 0 128 191 in
      match needed with
      | O => first
      | S k =>
          if in_range lo hi b then
            match k with
            | O => seen +:+ String b (utf8_decode s' "" 0 128 191)
            | S _ => utf8_decode s' (seen +:+ String b "") k 128 191
            end
          else replacement_character +:+ first
      end
  end.

Definition utf8_decode_without_BOM (s : string) : string :=
  utf8_decode s "" 0 128 191.

Fixpoint plus_to_space (s : string) : string :=
  match s with
  | "" => ""
  | String c s' => String (if Ascii.eqb c "+" then " "%char else c) (plus_to_space s')
  end.

(** A sequence is cut at its first [=]; without one the value is empty. *)
Fixpoint name_and_value (bytes : string) : string * string :=
  match bytes with
  | "" => ("", "")
  | String c s' =>
      if Ascii.eqb c "=" then ("", s')
      else let '(name, value) := name_and_value s' in (String c name, value)
  end.

Definition form_decode (bytes : string) : string :=
  utf8_decode_without_BOM (percent_decode (plus_to_space bytes)).

Definition parse_sequence (bytes : string) : option (string * string) :=
  if bool_decide (bytes = "") then None
  else let '(name, value) := name_and_value bytes in
       Some (form_decode name, form_decode value).

(** The [application/x-www-form-urlencoded] parser. *)
Definition parse_urlencoded (input : string) : list (string * string) :=
  omap parse_sequence (split input "&").

(** [new URLSearchParams(init)]: one leading [?] is dropped. *)
Definition URLSearchParams (init : string) : list (string * string) :=
  parse_urlencoded (match init with
                    | String c init' => if Ascii.eqb c "?" then init' else init
                    | "" => init
                    end).

(** [params.get(name)]: the value of the first pair called [name]. *)
Fixpoint params_get (params : list (string * string)) (name : string)
  : option string :=
  match params with
  | [] => None
  | (n, v) :: rest => if bool_decide (n = name) then Some v else params_get rest name
  end.
(** ** [window.location.hash] *)

(** The fragment percent-encode set: C0 controls, space, the double quote,
    [<], [>], the backquote, and everything above [~]. *)
Definition in_fragment_encode_set (c : ascii) : bool :=
  (char_code c <? 32) || (126 <? char_code c)
  || char_in [" "%char; ascii_of_N 34; "<"%char; ">"%char; "`"%char] c.

Fixpoint fragment_state (input : string) : string :=
  match input with
  | "" => ""
  | String c input' =>
      if char_in ["009"; "010"; "013"]%char c then fragment_state input'
      else (if in_fragment_encode_set c then percent_escape c else String c "")
           +:+ fragment_state input'
  end.

(** What [window.location.hash] reads after [window.location.hash = v]: one
    leading [#] of [v] is dropped, the rest is parsed as a fragment, and an
    empty fragment reads as the empty string. *)
Definition location_hash_after_set (v : string) : string :=
  let input := match v with
               | String c v' => if Ascii.eqb c "#" then v' else v
               | "" => v
               end in
  let fragment := fragment_state input in
  if bool_decide (fragment = "") then "" else String "#" fragment.
(** ** Translation *)

(** The loaded translation file ([trMap]): up to three tables of strings. *)
Record TrMap := {
  ui : option (gmap string string);
  facets : option (gmap string string);
  values : option (gmap string string)
}.

(** What the translation function returns: a string (an entry of a table, or
    the key), a member of [Object.prototype] that a table inherits under the
    key, or the key itself when it is not a string ([undefined], an array). *)
Inductive Translated :=
  | Text (s : string)
  | Member (k : string)
  | Same (v : option JsValue).

(** [table && table[key]], when that is truthy. *)
Definition table_entry (table : option (gmap string string)) (key : string)
  : option Translated :=
  match table with
  | Some entries =>
      match js_get entries key with
      | Own s => if bool_decide (s = "") then None else Some (Text s)
      | Inherited k => Some (Member k)
      | Undefined => None
      end
  | None => None
  end.

(** The three [if]s of [translate]. *)
Definition tables_entry (trMap : TrMap) (key : string) : option Translated :=
  match table_entry (ui trMap) key with
  | Some r => Some r
  | None =>
      match table_entry (facets trMap) key with
      | Some r => Some r
      | None => table_entry (values trMap) key
      end
  end.

(** The function [buildT] returns, at a string; it reads [trMap] when it is
    called. *)
Definition translate (trMap : TrMap) (key : string) : Translated :=
  match tables_entry trMap key with
  | Some r => r
  | None => Text key
  end.

(** A value as a property key or in a template: [undefined] reads
    [undefined], an array is joined by commas. *)
Definition to_string (v : option JsValue) : string :=
  match v with
  | None => "undefined"
  | Some (Scalar s) => s
  | Some (Sequence arr) => join arr ","
  end.

(** The same function at any value ([t(c.name)]): the tables are read at the
    value as a property key, and the last [return] gives the value back. *)
Definition translate_value (trMap : TrMap) (v : option JsValue) : Translated :=
  match tables_entry trMap (to_string v) with
  | Some r => r
  | None =>
      match v with
      | Some (Scalar s) => Text s
      | _ => Same v
      end
  end.

(** ** The host *)

(** What the browser decides and the script does not.
    - [upper_case s] and [lower_case s] are [s.toUpperCase()] and
      [s.toLowerCase()] for a string with characters outside ASCII (the case
      mappings of Unicode).
    - [member_text k] is [String(Object.prototype[k])], the text of a
      built-in function.
    - [sort_throws trMap matches] tells whether [Array.prototype.sort], run on
      [matches] with the comparator of [renderCountryList], ever calls the
      comparator with a first argument whose translated name is not a string;
      the call then throws.  It is consulted only for two matches or more,
      one of them with such a name. *)
Record Host := {
  upper_case : string → string;
  lower_case : string → string;
  member_text : string → string;
  sort_throws : TrMap → list Country → bool
}.

(** [s.toUpperCase()] and [s.toLowerCase()]: on a string of ASCII characters
    the letters are mapped and nothing else changes. *)
Definition toUpperCase (h : Host) (s : string) : string :=
  if ascii_only s then upper_ascii s else upper_case h s.

Definition toLowerCase (h : Host) (s : string) : string :=
  if ascii_only s then lower_ascii s else lower_case h s.

(** A translation in a template or in a concatenation. *)
Definition shown (h : Host) (r : Translated) : string :=
  match r with
  | Text s => s
  | Member k => member_text h k
  | Same v => to_string v
  end.
(** ** Rendering *)

(** The double quote of the markup, and the end of a line. *)
Definition dq : string := String (ascii_of_N 34) "".
Definition nl : string := String (ascii_of_N 10) "".

(** [renderFacetLine(labelKey, arr)]: a string that is not empty has a
    [length] but no [map]. *)
Definition renderFacetLine (h : Host) (trMap : TrMap) (labelKey : string)
    (arr : option JsValue) : Completion string :=
  match arr with
  | None => Normal ""
  | Some (Scalar s) =>
      if bool_decide (s = "") then Normal "" else Throw TypeError
  | Some (Sequence vs) =>
      if bool_decide (length vs = 0%nat) then Normal ""
      else
        let items :=
          join (map (λ v, "<span class=" +:+ dq
                          +:+ "badge bg-secondary-subtle text-secondary-emphasis me-1"
                          +:+ dq +:+ ">" +:+ shown h (translate trMap v)
                          +:+ "</span>") vs)
               "" in
        Normal ("<div class=" +:+ dq +:+ "mb-1" +:+ dq +:+ "><span class=" +:+ dq
                +:+ "text-body-secondary" +:+ dq +:+ ">"
                +:+ shown h (translate trMap labelKey) +:+ ":</span> "
                +:+ items +:+ "</div>")
  end.

(** The lines [${renderFacetLine(k, c[k])}] of a template, one for each key,
    each behind its indentation. *)
Fixpoint facet_lines (h : Host) (trMap : TrMap) (indent : string)
    (keys : list string) (c : Country) : Completion string :=
  match keys with
  | [] => Normal ""
  | k :: rest =>
      match renderFacetLine h trMap k (c !! k) with
      | Throw e => Throw e
      | Normal line =>
          match facet_lines h trMap indent rest c with
          | Throw e => Throw e
          | Normal lines => Normal (indent +:+ line +:+ nl +:+ lines)
          end
      end
  end.

(** The facets of a card of the list, and those of the modal. *)
Definition card_keys : list string :=
  ["cameras"; "flagColor"; "flagPattern"; "roadLine"; "driving"; "alphabet";
   "scenery"; "uniqueLetter"].

Definition modal_keys : list string := card_keys ++ ["years"].

(** The callback of [renderCountryList]: the card of one match [c]. *)
Definition country_card (h : Host) (trMap : TrMap) (c : Country)
  : Completion string :=
  let name := shown h (translate_value trMap (c !! "name")) in
  match c !! "code" with
  | Some (Scalar code) =>
      match facet_lines h trMap "              " card_keys c with
      | Throw e => Throw e
      | Normal lines =>
          Normal (nl
            +:+ "        <div class=" +:+ dq +:+ "card mb-2" +:+ dq +:+ ">" +:+ nl
            +:+ "          <div class=" +:+ dq +:+ "card-body py-2" +:+ dq +:+ ">" +:+ nl
            +:+ "            <strong>" +:+ name +:+ "</strong>" +:+ nl
            +:+ "            <small class=" +:+ dq +:+ "text-muted ms-1" +:+ dq +:+ ">"
            +:+ toUpperCase h code +:+ "</small>" +:+ nl
            +:+ "            <div class=" +:+ dq +:+ "mt-2" +:+ dq +:+ ">" +:+ nl
            +:+ lines
            +:+ "            </div>" +:+ nl
            +:+ "          </div>" +:+ nl
            +:+ "        </div>" +:+ nl
            +:+ "      ")
      end
  | _ => Throw TypeError
  end.

(** The title and the body [showCountryModal] writes for [country]. *)
Definition modal_title (h : Host) (trMap : TrMap) (code : string)
    (country : Country) : string :=
  shown h (translate_value trMap (country !! "name"))
  +:+ " (" +:+ toUpperCase h code +:+ ")".

Definition modal_body (h : Host) (trMap : TrMap) (code : string)
    (country : Country) : Completion string :=
  let name := shown h (translate_value trMap (country !! "name")) in
  match facet_lines h trMap "        " modal_keys country with
  | Throw e => Throw e
  | Normal lines =>
      Normal (nl
        +:+ "    <div>" +:+ nl
        +:+ "      <strong>" +:+ name +:+ "</strong>" +:+ nl
        +:+ "      <small class=" +:+ dq +:+ "text-muted ms-1" +:+ dq +:+ ">"
        +:+ toUpperCase h code +:+ "</small>" +:+ nl
        +:+ "      <div class=" +:+ dq +:+ "mt-2" +:+ dq +:+ ">" +:+ nl
        +:+ lines
        +:+ "      </div>" +:+ nl
        +:+ "    </div>" +:+ nl
        +:+ "  ")
  end.

(** *** The views of [render] *)

(** [recolorMap(matches)], as far as it can fail: [m.code.toLowerCase()]
    needs a string. *)
Definition recolorMap (ms : list Country) : Completion unit :=
  if forallb (λ m, match m !! "code" with
                   | Some (Scalar _) => true
                   | _ => false
                   end) ms
  then Normal tt else Throw TypeError.

(** Is the translated name of a match a string?  Only a string has the
    [localeCompare] the comparator calls. *)
Definition name_is_text (trMap : TrMap) (c : Country) : bool :=
  match translate_value trMap (c !! "name") with
  | Text _ => true
  | _ => false
  end.

(** The cards of the matches, in the order given. *)
Fixpoint cards (h : Host) (trMap : TrMap) (ms : list Country)
  : Completion (list string) :=
  match ms with
  | [] => Normal []
  | c :: rest =>
      match country_card h trMap c with
      | Throw e => Throw e
      | Normal card =>
          match cards h trMap rest with
          | Throw e => Throw e
          | Normal others => Normal (card :: others)
          end
      end
  end.

(** [renderCountryList(matches)], as far as it can fail.  The sort throws
    when its comparator is called on a name that is not a string, which is
    for the host to tell; then every match gets its card.  The order of the
    cards is the host's and is not kept, nor is the markup. *)
Definition renderCountryList (h : Host) (trMap : TrMap) (ms : list Country)
  : Completion unit :=
  if (2 <=? length ms)%nat && negb (forallb (name_is_text trMap) ms)
     && sort_throws h trMap ms
  then Throw TypeError
  else match cards h trMap ms with
       | Throw e => Throw e
       | Normal _ => Normal tt
       end.
(** ** The values offered for a facet *)

(** The callback of [getAllFacetValues]: what one record adds to the set. *)
Definition collect (k : string) (set : JsSet) (country : Country) : JsSet :=
  let v := country !! k in
  if negb (truthy v) then set
  else match v with
       | Some (Sequence arr) => foldl set_add set arr
       | Some (Scalar s) => set_add set s
       | None => set
       end.

(** [getAllFacetValues(key)] *)
Definition getAllFacetValues (m : Metas) (k : string) : list string :=
  foldl (collect k) [] m.*2.
(** ** [slug] *)

(** The length in bytes of the white space character ([\s]) a string begins
    with, if it begins with one: TAB, LF, VT, FF, CR and the space; U+00A0;
    U+1680; U+2000 to U+200A, U+2028, U+2029 and U+202F; U+205F; U+3000;
    U+FEFF. *)
Definition white_space (s : string) : option nat :=
  match s with
  | String b0 rest =>
      if in_range 9 13 b0 || (char_code b0 =? 32) then Some 1%nat
      else
        match rest with
        | String b1 rest' =>
            if (char_code b0 =? 194) && (char_code b1 =? 160) then Some 2%nat
            else
              match rest' with
              | String b2 _ =>
                  if (char_code b0 =? 225) && (char_code b1 =? 154)
                     && (char_code b2 =? 128)
                     || (char_code b0 =? 226) && (char_code b1 =? 128)
                        && (in_range 128 138 b2 || in_range 168 169 b2
                            || (char_code b2 =? 175))
                     || (char_code b0 =? 226) && (char_code b1 =? 129)
                        && (char_code b2 =? 159)
                     || (char_code b0 =? 227) && (char_code b1 =? 128)
                        && (char_code b2 =? 128)
                     || (char_code b0 =? 239) && (char_code b1 =? 187)
                        && (char_code b2 =? 191)
                  then Some 3%nat
                  else None
              | "" => None
              end
        | "" => None
        end
  | "" => None
  end.

(** [s.replace(/\s+/g, "-")].  [skip] counts the bytes still to pass of the
    white space character being read; [in_run] tells whether a run of white
    space is open, whose dash has been written. *)
Fixpoint replace_spaces (skip : nat) (in_run : bool) (s : string) : string :=
  match s with
  | "" => ""
  | String c s' =>
      match skip with
      | S n => replace_spaces n in_run s'
      | O =>
          match white_space s with
          | Some len =>
              (if in_run then "" else "-") +:+ replace_spaces (Nat.pred len) true s'
          | None => String c (replace_spaces 0 false s')
          end
      end
  end.

(** The characters [/[^a-z0-9-_]/gi] leaves. *)
Definition slug_source_char (c : ascii) : bool :=
  is_alnum c || char_in ["-"; "_"]%char c.

(** [s.replace(/[^a-z0-9-_]/gi, "")] *)
Fixpoint remove_others (s : string) : string :=
  match s with
  | "" => ""
  | String c s' =>
      if slug_source_char c then String c (remove_others s') else remove_others s'
  end.

Definition slug (h : Host) (s : string) : string :=
  toLowerCase h (remove_others (replace_spaces 0 false s)).
(** ** The page *)

(** A facet checkbox ([input.btn-check]) with its [dataset]. *)
Record Checkbox := { facetKey : string; value : string; checked : bool }.

(** The modal, once shown: the upper-cased code of its title and the record
    its title and body were rendered from, at the last call that reached
    [modal.show()]. *)
Record Modal := { modal_code : string; modal_country : Country }.

(** The globals of the script and the parts of the page it writes:
    [metas], [state], [window.location.hash], the checkboxes, the modal, the
    [hidden.bs.modal] handlers registered so far, the matches last handed
    to the three views by [render] and [trMap]; and the host the page runs
    on. *)
Record App := {
  metas : Metas;
  state : State;
  location_hash : string;
  checkboxes : list Checkbox;
  modal : option Modal;
  hidden_handlers : nat;
  matches : list Country;
  trMap : TrMap;
  host : Host
}.

Definition set_state (st : State) (w : App) : App :=
  {| metas := metas w; state := st; location_hash := location_hash w;
     checkboxes := checkboxes w; modal := modal w;
     hidden_handlers := hidden_handlers w; matches := matches w;
     trMap := trMap w; host := host w |}.

Definition set_location_hash (fragment : string) (w : App) : App :=
  {| metas := metas w; state := state w; location_hash := fragment;
     checkboxes := checkboxes w; modal := modal w;
     hidden_handlers := hidden_handlers w; matches := matches w;
     trMap := trMap w; host := host w |}.

Definition set_checkboxes (bs : list Checkbox) (w : App) : App :=
  {| metas := metas w; state := state w; location_hash := location_hash w;
     checkboxes := bs; modal := modal w;
     hidden_handlers := hidden_handlers w; matches := matches w;
     trMap := trMap w; host := host w |}.

Definition set_modal (m : option Modal) (w : App) : App :=
  {| metas := metas w; state := state w; location_hash := location_hash w;
     checkboxes := checkboxes w; modal := m;
     hidden_handlers := hidden_handlers w; matches := matches w;
     trMap := trMap w; host := host w |}.

Definition set_hidden_handlers (n : nat) (w : App) : App :=
  {| metas := metas w; state := state w; location_hash := location_hash w;
     checkboxes := checkboxes w; modal := modal w; hidden_handlers := n;
     matches := matches w; trMap := trMap w; host := host w |}.

Definition set_matches (ms : list Country) (w : App) : App :=
  {| metas := metas w; state := state w; location_hash := location_hash w;
     checkboxes := checkboxes w; modal := modal w;
     hidden_handlers := hidden_handlers w; matches := ms; trMap := trMap w;
     host := host w |}.

Definition set_trMap (tr : TrMap) (w : App) : App :=
  {| metas := metas w; state := state w; location_hash := location_hash w;
     checkboxes := checkboxes w; modal := modal w;
     hidden_handlers := hidden_handlers w; matches := matches w; trMap := tr;
     host := host w |}.

(** *** State and exceptions *)

Inductive Res (A : Type) :=
  | Ret (a : A) (w : App)
  | Raise (e : JsError) (w : App).
Arguments Ret {A} a w.
Arguments Raise {A} e w.

Definition M (A : Type) : Type := App → Res A.

Definition ret {A} (a : A) : M A := λ w, Ret a w.

Definition bind {A B} (m : M A) (k : A → M B) : M B :=
  λ w, match m w with
       | Ret a w' => k a w'
       | Raise e w' => Raise e w'
       end.

Definition gets {A} (f : App → A) : M A := λ w, Ret (f w) w.
Definition modify (f : App → App) : M unit := λ w, Ret tt (f w).

Definition lift {A} (c : Completion A) : M A :=
  λ w, match c with
       | Normal a => Ret a w
       | Throw e => Raise e w
       end.

(** How a call ended, and the page it left. *)
Definition outcome {A} (r : Res A) : option JsError :=
  match r with
  | Ret _ _ => None
  | Raise e _ => Some e
  end.

Definition final {A} (r : Res A) : App :=
  match r with
  | Ret _ w => w
  | Raise _ w => w
  end.

Notation "x <- m ;; k" := (bind m (λ x, k))
  (at level 100, m at next level, right associativity).
Notation "m ;; k" := (bind m (λ _, k))
  (at level 100, right associativity).

(** [xs.forEach(body)] *)
Fixpoint forEach {A} (xs : list A) (body : A → M unit) : M unit :=
  match xs with
  | [] => ret tt
  | x :: rest => body x ;; forEach rest body
  end.

(** [state[k].op(...)] for [op] one of [add], [delete] and [clear]: a
    [TypeError] when [state[k]] is no [Set], be it [undefined] or a member of
    [Object.prototype], none of which has such a method. *)
Definition with_set (k : string) (op : JsSet → JsSet) : M unit :=
  λ w, match state w !! k with
       | None => Raise TypeError w
       | Some sel => Ret tt (set_state (<[k := op sel]> (state w)) w)
       end.
(** *** [render] *)

(** The matches are computed, then handed to [updateCounters], which cannot
    fail, to [recolorMap] and to [renderCountryList]. *)
Definition render : M unit :=
  m <- gets metas ;;
  st <- gets state ;;
  ms <- lift (render_matches m st) ;;
  modify (set_matches ms) ;;
  lift (recolorMap ms) ;;
  h <- gets host ;;
  tr <- gets trMap ;;
  lift (renderCountryList h tr ms).

(** *** [serializeStateToHash] *)

(** The entry pushed for one facet, if any. *)
Definition facet_param (st : State) (facet : Facet) : option string :=
  match st !! key facet with
  | Some sel =>
      if bool_decide (0 < set_size sel)%nat
      then Some (encodeURIComponent (key facet) +:+ "="
                 +:+ join (map encodeURIComponent sel) ",")
      else None
  | None => None
  end.

(** A country code is pushed when it is truthy: given and not empty. *)
Definition country_param (countryCode : option string) : list string :=
  match countryCode with
  | Some c => if bool_decide (c = "") then [] else ["country=" +:+ encodeURIComponent c]
  | None => []
  end.

Definition serializeStateToHash (countryCode : option string) : M unit :=
  st <- gets state ;;
  let params := omap (facet_param st) FACETS ++ country_param countryCode in
  let hash := "#!" +:+ join params "&" in
  modify (λ w, set_location_hash (location_hash_after_set hash) w).
(** *** [showCountryModal] *)

(** The title is written, then the body, which may fail; only then is the
    modal shown, the fragment written and the handler registered. *)
Definition showCountryModal (code : string) (updateHash : bool) : M unit :=
  m <- gets metas ;;
  h <- gets host ;;
  tr <- gets trMap ;;
  match (match metas_get m (toUpperCase h code) with
         | Some c => Some c
         | None => metas_get m code
         end) with
  | None => ret tt
  | Some country =>
      lift (modal_body h tr code country) ;;
      modify (set_modal (Some {| modal_code := toUpperCase h code;
                                 modal_country := country |})) ;;
      (if updateHash then serializeStateToHash (Some code) else ret tt) ;;
      modify (λ w, set_hidden_handlers (S (hidden_handlers w)) w)
  end.

(** *** [parseHashToState] *)

(** [state[k].add(decodeURIComponent(v))] *)
Definition add_decoded (k v : string) : M unit :=
  λ w, match state w !! k with
       | None => Raise TypeError w
       | Some sel =>
           match decodeURIComponent v with
           | Throw e => Raise e w
           | Normal d => Ret tt (set_state (<[k := set_add sel d]> (state w)) w)
           end
       end.

(** [input.checked = state[key] && state[key].has(val)], when [state[key]]
    is a [Set] or [undefined]. *)
Definition restore_checked (st : State) (input : Checkbox) : Checkbox :=
  {| facetKey := facetKey input; value := value input;
     checked := match st !! facetKey input with
                | Some sel => set_has sel (value input)
                | None => false
                end |}.

(** The same assignment for any key: a member of [Object.prototype] is truthy
    and has no [has]. *)
Definition restore_input (st : State) (input : Checkbox) : Completion Checkbox :=
  match js_get st (facetKey input) with
  | Inherited _ => Throw TypeError
  | _ => Normal (restore_checked st input)
  end.

(** The loop over the checkboxes: those before the one that throws have been
    written. *)
Fixpoint restore_inputs (st : State) (inputs : list Checkbox)
  : list Checkbox * option JsError :=
  match inputs with
  | [] => ([], None)
  | input :: rest =>
      match restore_input st input with
      | Throw e => (input :: rest, Some e)
      | Normal written =>
          let '(others, e) := restore_inputs st rest in (written :: others, e)
      end
  end.

Definition restore_checkboxes : M unit :=
  λ w, let '(inputs, e) := restore_inputs (state w) (checkboxes w) in
       match e with
       | None => Ret tt (set_checkboxes inputs w)
       | Some e => Raise e (set_checkboxes inputs w)
       end.

Definition parseHashToState : M unit :=
  h <- gets location_hash ;;
  if negb (startsWith h "#!") then ret tt
  else
    let hash := slice h 2 in
    let params := URLSearchParams (replace_amp hash) in
    forEach FACETS (λ facet,
      with_set (key facet) set_clear ;;
      match params_get params (key facet) with
      | Some val =>
          if bool_decide (val = "") then ret tt
          else forEach (split val ",") (add_decoded (key facet))
      | None => ret tt
      end) ;;
    restore_checkboxes ;;
    match params_get params "country" with
    | Some countryCode =>
        if bool_decide (countryCode = "") then ret tt
        else showCountryModal countryCode false
    | None => ret tt
    end.
(** *** [clearAll], [onFacetToggle], [boot] *)

Definition uncheck (input : Checkbox) : Checkbox :=
  {| facetKey := facetKey input; value := value input; checked := false |}.

Definition clearAll : M unit :=
  forEach FACETS (λ f, with_set (key f) set_clear) ;;
  modify (λ w, set_checkboxes (map uncheck (checkboxes w)) w) ;;
  serializeStateToHash None ;;
  render.

(** The [change] handler; [el] is the checkbox the user has just flipped. *)
Definition onFacetToggle (el : Checkbox) : M unit :=
  with_set (facetKey el)
    (λ sel, if checked el then set_add sel (value el)
            else set_delete sel (value el)) ;;
  serializeStateToHash None ;;
  render.

(** The end of [boot], once the dataset and the translation file are loaded
    and the checkboxes are built: the state is initialised, then restored
    from the fragment. *)
Definition boot (h : Host) (data : Metas) (tr : TrMap) (inputs : list Checkbox)
    (fragment : string) : Res unit :=
  (parseHashToState ;; render)
    {| metas := data; state := init_state ∅; location_hash := fragment;
       checkboxes := inputs; modal := None; hidden_handlers := 0;
       matches := []; trMap := tr; host := h |}.
(** ** The theme *)

(** What the theme code reads and writes: the [theme] item of
    [localStorage], the [data-bs-theme] attribute of the document element,
    the variable [currentTheme] of [setupThemeToggle], the class of the toggle
    button and the URL of the tile layer of the map.  The page is one that
    has the toggle, its icon and the map container, and whose storage accepts
    the item. *)
Record ThemeEnv := {
  stored : option string;
  attribute : option string;
  currentTheme : string;
  toggle_class : string;
  tile_url : Looked string
}.

(** [localStorage.getItem("theme") ||
    document.documentElement.getAttribute("data-bs-theme") || "light"] *)
Definition getCurrentTheme (env : ThemeEnv) : string :=
  or_else (stored env) (or_else (attribute env) "light").

(** [const TILE_URLS = { light: ..., dark: ... }] *)
Definition tile_urls : gmap string string :=
  {[ "light" := "https://{s}.basemaps.cartocdn.com/light_nolabels/{z}/{x}/{y}.png";
     "dark" := "https://{s}.basemaps.cartocdn.com/dark_nolabels/{z}/{x}/{y}.png" ]}.

(** [TILE_URLS[theme]] *)
Definition TILE_URLS (theme : string) : Looked string := js_get tile_urls theme.

(** The class [updateThemeIcon] gives the toggle button. *)
Definition updateThemeIcon (theme : string) : string :=
  if bool_decide (theme = "light") then "btn btn-dark me-2"
  else "btn btn-warning me-2".

(** The body of [setupThemeToggle], up to the registration of the handler. *)
Definition setupThemeToggle (env : ThemeEnv) : ThemeEnv :=
  let theme := or_else (stored env) (or_else (attribute env) "light") in
  {| stored := stored env; attribute := Some theme; currentTheme := theme;
     toggle_class := updateThemeIcon theme; tile_url := tile_url env |}.

(** The tile layer of [initMap]. *)
Definition initMap (env : ThemeEnv) : ThemeEnv :=
  {| stored := stored env; attribute := attribute env;
     currentTheme := currentTheme env; toggle_class := toggle_class env;
     tile_url := TILE_URLS (getCurrentTheme env) |}.

(** The [click] handler of the toggle, up to [render]; [switchMapTheme]
    replaces the tile layer. *)
Definition themeToggle_click (env : ThemeEnv) : ThemeEnv :=
  let theme :=
    if bool_decide (currentTheme env = "light") then "dark" else "light" in
  {| stored := Some theme; attribute := Some theme; currentTheme := theme;
     toggle_class := updateThemeIcon theme; tile_url := TILE_URLS theme |}.

(** The fill colour of [matchedStyle]. *)
Definition matchedStyle (env : ThemeEnv) : string :=
  if bool_decide (or_else (stored env) (or_else (attribute env) "light") = "dark")
  then "#306c01" else "#1d3b8b".
(** ** The features of the map *)

(** * Vocabulary of the statements

    Predicates on states and strings, sample data, and the functions the
    theorems below name. *)

(** ** Filter states *)

(** After [boot] every facet has its [Set]; the loops over [FACETS] rely on
    it. *)
Definition state_ok (st : State) : Prop :=
  Forall (λ f, is_Some (st !! key f)) FACETS.

(** No facet has a selected value. *)
Definition all_empty (st : State) : Prop :=
  Forall (λ f, st !! key f = Some []) FACETS.

#[global] Instance state_ok_dec st : Decision (state_ok st).
Proof. unfold state_ok. apply _. Defined.

#[global] Instance all_empty_dec st : Decision (all_empty st).
Proof. unfold all_empty. apply _. Defined.

(** [m] leaves every facet its [Set], however it ends. *)
Definition keeps_state_ok {A} (m : M A) : Prop :=
  ∀ w, state_ok (state w) → state_ok (state (final (m w))).

(** Every entry of the dataset, as [render] pushes it. *)
Definition all_matches (C : Metas) : list Country :=
  map (λ entry, match_record entry.1 entry.2) C.

(** ** Sample data *)

(** A state with one selection, every other facet being empty. *)
Definition example_state (k : string) (sel : JsSet) : State :=
  <[k := sel]> (init_state ∅).

(** The scenario of the specification: France drives on the right behind a
    blurred camera, Japan on the left behind a blurred one with a mirror. *)
Definition FR : Country :=
  {[ "name" := Scalar "France"; "driving" := Scalar "right";
     "cameras" := Sequence ["blur"] ]}.

Definition JP : Country :=
  {[ "name" := Scalar "Japan"; "driving" := Scalar "left";
     "cameras" := Sequence ["blur"; "mirror"] ]}.

Definition scenario : Metas := [("FR", FR); ("JP", JP)].

(** A record of the shape the views expect: every facet it has is an
    array. *)
Definition DE : Country :=
  {[ "name" := Scalar "Germany"; "driving" := Sequence ["right"];
     "cameras" := Sequence ["blur"; "Gen 4"] ]}.

(** No translation file: [let trMap = {}]. *)
Definition no_translation : TrMap :=
  {| ui := None; facets := None; values := None |}.

(** A host for the examples.  Its case mappings leave the characters outside
    ASCII alone, and its [sort] always calls the comparator on a name that is
    not a string when there is one. *)
Definition plain_host : Host :=
  {| upper_case := upper_ascii; lower_case := lower_ascii;
     member_text := λ k, "function " +:+ k +:+ "() { [native code] }";
     sort_throws := λ _ _, true |}.

(** A page with one checkbox, no modal and nothing rendered yet, without
    translations, on the host of the examples. *)
Definition page (data : Metas) (st : State) (fragment : string) : App :=
  {| metas := data; state := st; location_hash := fragment;
     checkboxes := [ {| facetKey := "driving"; value := "left"; checked := true |} ];
     modal := None; hidden_handlers := 0; matches := [];
     trMap := no_translation; host := plain_host |}.

(** ** The country modal *)

(** The lookup the specification describes: the first record whose key is the
    code up to letter case. *)
Definition lookup_ignoring_case (h : Host) (m : Metas) (code : string)
  : option Country :=
  snd <$> find (λ entry, bool_decide (toUpperCase h entry.1 = toUpperCase h code)) m.

(** What [showCountryModal] leaves behind when it has found [country]. *)
Definition modal_opened (code : string) (updateHash : bool) (country : Country)
    (w : App) : App :=
  let shown := set_modal (Some {| modal_code := toUpperCase (host w) code;
                                  modal_country := country |}) w in
  let hashed :=
    if updateHash
    then set_location_hash
           (location_hash_after_set
              ("#!" +:+ join (omap (facet_param (state w)) FACETS
                              ++ country_param (Some code)) "&")) shown
    else shown in
  set_hidden_handlers (S (hidden_handlers w)) hashed.

(** ** Reading the fragment *)

(** The steps of [parseHashToState] after the parameters are parsed. *)
Definition restore_from (params : list (string * string)) : M unit :=
  forEach FACETS (λ facet,
    with_set (key facet) set_clear ;;
    match params_get params (key facet) with
    | Some val =>
        if bool_decide (val = "") then ret tt
        else forEach (split val ",") (add_decoded (key facet))
    | None => ret tt
    end) ;;
  restore_checkboxes ;;
  match params_get params "country" with
  | Some countryCode =>
      if bool_decide (countryCode = "") then ret tt
      else showCountryModal countryCode false
  | None => ret tt
  end.

(** The parameters [parseHashToState] reads from a fragment. *)
Definition hash_params (h : string) : list (string * string) :=
  URLSearchParams (replace_amp (slice h 2)).




(** Does [c] occur in [s]? *)
Fixpoint contains (s : string) (c : ascii) : bool :=
  match s with
  | "" => false
  | String c' s' => Ascii.eqb c' c || contains s' c
  end.


(** ** The fragment as the specification reads it *)

(** The segments of a body, cut at [&], each cut at its first [=]. *)
Definition fragment_segments (body : string) : list (string * string) :=
  map name_and_value (split body "&").

(** The pieces the segments list for a key: the text after the [=] of every
    segment whose key, percent-decoded, is the key, cut at the commas. *)
Definition pieces_for (body k : string) : list string :=
  flat_map (λ seg, if bool_decide (percent_decode seg.1 = k)
                   then split seg.2 "," else [])
           (fragment_segments body).

(** The values listed for a key: its pieces, each percent-decoded. *)
Definition listed_for (body k : string) : list string :=
  map percent_decode (pieces_for body k).


(** ** Values the loop adds *)

(** [vs.map(decodeURIComponent)], failing with the first value that fails. *)
Fixpoint decode_all (vs : list string) : Completion (list string) :=
  match vs with
  | [] => Normal []
  | v :: rest =>
      match decodeURIComponent v with
      | Throw e => Throw e
      | Normal d =>
          match decode_all rest with
          | Throw e => Throw e
          | Normal ds => Normal (d :: ds)
          end
      end
  end.

(** The values the loop of [parseHashToState] adds for a key: the value of
    the first pair with that key, cut at the commas, each piece decoded; none
    without such a pair, or with an empty value. *)
Definition listed_values (params : list (string * string)) (k : string)
  : Completion (list string) :=
  match params_get params k with
  | Some val => if bool_decide (val = "") then Normal [] else decode_all (split val ",")
  | None => Normal []
  end.

(** Does the call return normally? *)
Definition completes {A} (c : Completion A) : bool :=
  match c with
  | Normal _ => true
  | Throw _ => false
  end.

(** A [Set] filled with [vs], in order. *)
Definition set_of (vs : list string) : JsSet := foldl set_add [] vs.

(** The selection a key ends with. *)
Definition selection_of (params : list (string * string)) (k : string) : JsSet :=
  match listed_values params k with
  | Normal vs => set_of vs
  | Throw _ => []
  end.

(** ** Written fragments and plain values *)

(** The characters [serializeStateToHash] writes after the sentinel. *)
Definition wire_char (c : ascii) : bool :=
  uriUnescaped c || char_in ["%"; "="; ","; "&"]%char c.

(** A well-formed string: a sequence of UTF-8 code points. *)
Inductive utf8 : string → Prop :=
  | utf8_nil : utf8 ""
  | utf8_1 b s : (char_code b <? 128) = true → utf8 s → utf8 (String b s)
  | utf8_2 b0 b1 s :
      utf8_sequence [b0; b1] = true → utf8 s → utf8 (String b0 (String b1 s))
  | utf8_3 b0 b1 b2 s :
      utf8_sequence [b0; b1; b2] = true → utf8 s →
      utf8 (String b0 (String b1 (String b2 s)))
  | utf8_4 b0 b1 b2 b3 s :
      utf8_sequence [b0; b1; b2; b3] = true → utf8 s →
      utf8 (String b0 (String b1 (String b2 (String b3 s)))).

(** A value that survives the round trip: well formed, not empty, and with
    neither a comma nor a percent sign. *)
Definition plain_value (v : string) : Prop :=
  utf8 v ∧ v ≠ "" ∧ contains v "," = false ∧ contains v "%" = false.

(** Case analysis on the 256 characters. *)
Ltac each_char c := destruct c as [[] [] [] [] [] [] [] []].

(** Well-formedness of a given string. *)
Ltac utf8_string :=
  repeat first
    [ apply utf8_nil
    | apply utf8_1; [reflexivity|]
    | apply utf8_2; [reflexivity|]
    | apply utf8_3; [reflexivity|]
    | apply utf8_4; [reflexivity|] ].

(** What [encodeURIComponent] writes: unescaped characters and escapes. *)
Definition escaped_char (c : ascii) : bool :=
  uriUnescaped c || char_in ["%"]%char c.





(** A state whose selections are duplicate-free (they are [Set]s) and hold
    plain values only. *)
Definition plain_state (st : State) : Prop :=
  ∀ f sel, f ∈ FACETS → st !! key f = Some sel →
           NoDup sel ∧ Forall plain_value sel.

(** The country code that reaches the fragment: a truthy one. *)
Definition focused (countryCode : option string) : option string :=
  match countryCode with
  | Some c => if bool_decide (c = "") then None else Some c
  | None => None
  end.

(** The pair read back for a facet, and for the country. *)
Definition facet_pair (st : State) (f : Facet) : option (string * string) :=
  match st !! key f with
  | Some sel =>
      if bool_decide (0 < set_size sel)%nat then Some (key f, join sel ",") else None
  | None => None
  end.

Definition country_pair (countryCode : option string) : list (string * string) :=
  match focused countryCode with
  | Some c => [("country", c)]
  | None => []
  end.

(** The characters of one parameter. *)
Definition param_char (c : ascii) : bool :=
  escaped_char c || char_in ["="; ","]%char c.

(** ** More on matching *)

(** Does the country pass every filter? *)
Definition passes (st : State) (country : Country) : bool :=
  match matchesAllFilters st country with
  | Normal b => b
  | Throw _ => false
  end.

(** ** More on the page *)

(** The fragment [serializeStateToHash] composes for a state and a country
    code. *)
Definition written_fragment (st : State) (countryCode : option string) : string :=
  "#!" +:+ join (omap (facet_param st) FACETS ++ country_param countryCode) "&".

(** [m] leaves the part [part] of the page as it was, however it ends. *)
Definition preserves {A B} (part : App → B) (m : M A) : Prop :=
  ∀ w, part (final (m w)) = part w.

(** The selection of a facet after its checkbox [el] has changed. *)
Definition toggled (sel : JsSet) (el : Checkbox) : JsSet :=
  if checked el then set_add sel (value el) else set_delete sel (value el).

(** What [showCountryModal] finds for a code:
    [metas[code.toUpperCase()] || metas[code]]. *)
Definition found (h : Host) (m : Metas) (code : string) : option Country :=
  match metas_get m (toUpperCase h code) with
  | Some c => Some c
  | None => metas_get m code
  end.

(** The page [boot] starts from. *)
Definition fresh_page (h : Host) (data : Metas) (tr : TrMap)
    (inputs : list Checkbox) (fragment : string) : App :=
  {| metas := data; state := init_state ∅; location_hash := fragment;
     checkboxes := inputs; modal := None; hidden_handlers := 0; matches := [];
     trMap := tr; host := h |}.

(** Checkboxes as [buildFiltersFragment] makes them: none is keyed by a name
    of [Object.prototype]. *)
Definition ordinary (inputs : list Checkbox) : Prop :=
  Forall (λ input, inherited (facetKey input) = false) inputs.

(** ** Events *)

(** What can happen to the page once [boot] is over: a checkbox changes, a
    [Clear all] button is clicked, a country of the map is clicked, the modal
    is hidden, a language is chosen and its file loaded, the theme toggle is
    clicked. *)
Inductive Event :=
  | Toggle (el : Checkbox)
  | ClearAll
  | LayerClick (code : string)
  | ModalHidden
  | LanguageChange (tr : TrMap)
  | ThemeClick.

(** The handlers the script registers.  Every [hidden.bs.modal] handler
    registered by [showCountryModal] writes the fragment and removes itself;
    the language handler replaces [trMap]; it and the theme handler end with
    [render]. *)
Definition handle (ev : Event) : M unit :=
  match ev with
  | Toggle el => onFacetToggle el
  | ClearAll => clearAll
  | LayerClick code => showCountryModal code true
  | ModalHidden =>
      n <- gets hidden_handlers ;;
      forEach (seq 0 n) (λ _, serializeStateToHash None) ;;
      modify (set_hidden_handlers 0)
  | LanguageChange tr => modify (set_trMap tr) ;; render
  | ThemeClick => render
  end.

(** The page after a sequence of events; a handler that throws leaves the
    page as it is at the throw. *)
Definition run (evs : list Event) (w : App) : App :=
  foldl (λ w ev, final (handle ev w)) w evs.

(** ** Values of the dataset *)

(** The values a record holds for a key: the elements of an array, or a
    non-empty string itself. *)
Definition holds (country : Country) (k v : string) : Prop :=
  match country !! k with
  | Some (Sequence arr) => v ∈ arr
  | Some (Scalar s) => s ≠ "" ∧ v = s
  | None => False
  end.

(** ** Values that cannot be rendered *)

(** A string that is not empty, where the views expect an array. *)
Definition bare_string (v : option JsValue) : bool :=
  match v with
  | Some (Scalar s) => negb (bool_decide (s = ""))
  | _ => false
  end.

(** A record whose modal body can be written. *)
Definition renders (country : Country) : Prop :=
  forallb (λ k, negb (bare_string (country !! k))) modal_keys = true.

(** ** Identifiers *)

(** The characters of a slug. *)
Definition slug_char (c : ascii) : bool :=
  is_digit c || is_lower_alpha c || char_in ["-"; "_"]%char c.

(** ** Clicks on the theme toggle *)

(** The page after [setupThemeToggle], [initMap] and [n] clicks on the
    toggle. *)
Definition after_clicks (n : nat) (env : ThemeEnv) : ThemeEnv :=
  Nat.iter n themeToggle_click (initMap (setupThemeToggle env)).

(** ** Codes *)

(** * Properties of the match engine *)

(** ** [Set] as a duplicate-free list *)

Lemma elem_of_set_add s v x : x ∈ set_add s v ↔ x ∈ s ∨ x = v.
Proof.
  unfold set_add, set_has. case_bool_decide as Hv.
  - split; [by left|]. by intros [?| ->].
  - by rewrite elem_of_app, list_elem_of_singleton.
Qed.

Lemma elem_of_set_delete s v x : x ∈ set_delete s v ↔ x ∈ s ∧ x ≠ v.
Proof. unfold set_delete. rewrite list_elem_of_filter. tauto. Qed.

Lemma set_add_NoDup s v : NoDup s → NoDup (set_add s v).
Proof.
  intros Hs. unfold set_add, set_has. case_bool_decide as Hv; [done|].
  apply NoDup_app. split; [done|]. split; [|apply NoDup_singleton].
  intros x Hx ->%list_elem_of_singleton. done.
Qed.

Lemma set_delete_NoDup s v : NoDup s → NoDup (set_delete s v).
Proof. apply NoDup_filter. Qed.

(** ** The facets of a state *)

Lemma state_ok_lookup st f : state_ok st → f ∈ FACETS → is_Some (st !! key f).
Proof. intros Hok Hf. exact (proj1 (Forall_forall _ _) Hok f Hf). Qed.

Lemma all_empty_lookup st f : all_empty st → f ∈ FACETS → st !! key f = Some [].
Proof. intros Hok Hf. exact (proj1 (Forall_forall _ _) Hok f Hf). Qed.

Lemma all_empty_ok st : all_empty st → state_ok st.
Proof. intros H. eapply Forall_impl; [exact H|]. intros f ->. eauto. Qed.

Lemma foldl_insert_lookup {V} (g : string → V) (facets : list Facet)
    (m : gmap string V) k :
  foldl (λ acc f, <[key f := g (key f)]> acc) m facets !! k
  = if bool_decide (k ∈ map key facets) then Some (g k) else m !! k.
Proof.
  revert m. induction facets as [|f facets IH]; intros m; simpl; [done|].
  rewrite IH. destruct (decide (key f = k)) as [->|Hne].
  - rewrite lookup_insert_eq.
    rewrite (bool_decide_eq_true_2 (_ ∈ _ :: _)) by left.
    by case_bool_decide.
  - rewrite lookup_insert_ne by done.
    destruct (decide (k ∈ map key facets)) as [Hin|Hnin].
    + rewrite !bool_decide_eq_true_2; [done|by right|done].
    + rewrite !bool_decide_eq_false_2; [done| |done].
      intros [?|?]%elem_of_cons; [congruence|done].
Qed.

Lemma init_state_lookup (facets : list Facet) (st : State) k :
  foldl (λ acc f, <[key f := []]> acc) st facets !! k
  = if bool_decide (k ∈ map key facets) then Some [] else st !! k.
Proof. apply (foldl_insert_lookup (λ _, [])). Qed.

Lemma init_state_all_empty st : all_empty (init_state st).
Proof.
  apply Forall_forall. intros f Hf. unfold init_state. rewrite init_state_lookup.
  rewrite bool_decide_eq_true_2; [done|]. by apply list_elem_of_fmap_2.
Qed.

Lemma facet_passes_empty val : facet_passes [] val = true.
Proof. done. Qed.

Lemma facet_passes_nonempty sel val :
  sel ≠ [] →
  facet_passes sel val =
    match val with
    | Some (Sequence arr) => forallb (includes arr) sel
    | Some (Scalar s) => negb (bool_decide (s = "")) && set_has sel s
    | None => false
    end.
Proof.
  intros Hsel. unfold facet_passes.
  rewrite bool_decide_eq_false_2; [|by destruct sel].
  destruct val as [[s|arr]|]; simpl; try done.
  by destruct (bool_decide (s = "")).
Qed.

Lemma forallb_includes arr sel :
  forallb (includes arr) sel = true ↔ ∀ x, x ∈ sel → x ∈ arr.
Proof.
  rewrite forallb_forall. unfold includes.
  split; intros H x Hx.
  - apply list_elem_of_In, H in Hx. by apply bool_decide_eq_true_1 in Hx.
  - apply bool_decide_eq_true_2, H. by apply list_elem_of_In.
Qed.

Section Matching.
Context (st : State) (country : Country).

(** The loop returns as the conjunction of its turns. *)
Lemma matches_from_forallb facets :
  (∀ f, f ∈ facets → is_Some (st !! key f)) →
  matches_from facets st country
  = Normal (forallb (λ f, facet_passes (default [] (st !! key f))
                                        (country !! key f)) facets).
Proof.
  induction facets as [|f facets IH]; intros Hok; simpl; [done|].
  destruct (Hok f) as [sel Hsel]; [left|]. rewrite Hsel. simpl.
  destruct (facet_passes sel (country !! key f)); simpl; [|done].
  apply IH. intros g Hg. apply Hok. by right.
Qed.

Lemma matchesAllFilters_total :
  state_ok st → ∃ b, matchesAllFilters st country = Normal b.
Proof.
  intros Hok. eexists. apply matches_from_forallb.
  intros f. by apply state_ok_lookup.
Qed.

Lemma matches_from_true_iff facets :
  (∀ f, f ∈ facets → is_Some (st !! key f)) →
  matches_from facets st country = Normal true
  ↔ ∀ f sel, f ∈ facets → st !! key f = Some sel →
             facet_passes sel (country !! key f) = true.
Proof.
  intros Hok. rewrite matches_from_forallb by done.
  split.
  - intros H f sel Hf Hsel. injection H as H.
    rewrite forallb_forall in H.
    apply list_elem_of_In, H in Hf. by rewrite Hsel in Hf.
  - intros H. f_equal. apply forallb_forall. intros f Hf.
    apply list_elem_of_In in Hf.
    destruct (Hok f Hf) as [sel Hsel]. rewrite Hsel. simpl. by apply H.
Qed.

Lemma matchesAllFilters_true_iff :
  state_ok st →
  matchesAllFilters st country = Normal true
  ↔ ∀ f sel, f ∈ FACETS → st !! key f = Some sel →
             facet_passes sel (country !! key f) = true.
Proof.
  intros Hok. apply matches_from_true_iff. intros f. by apply state_ok_lookup.
Qed.

Lemma matchesAllFilters_false_of f sel :
  state_ok st → f ∈ FACETS → st !! key f = Some sel →
  facet_passes sel (country !! key f) = false →
  matchesAllFilters st country = Normal false.
Proof.
  intros Hok Hf Hsel Hfail.
  destruct (matchesAllFilters_total Hok) as [[] Hb]; [|done].
  pose proof (proj1 (matchesAllFilters_true_iff Hok) Hb f sel Hf Hsel) as H.
  congruence.
Qed.
End Matching.

(** A country that fails the filters leaves the match list as it is without
    it. *)
Lemma render_matches_app st before after :
  render_matches (before ++ after) st =
    match render_matches before st, render_matches after st with
    | Normal ms1, Normal ms2 => Normal (ms1 ++ ms2)
    | Throw e, _ => Throw e
    | Normal _, Throw e => Throw e
    end.
Proof.
  induction before as [|[code c] before IH]; simpl.
  - by destruct (render_matches after st).
  - destruct (matchesAllFilters st c) as [b|e]; [|done].
    rewrite IH.
    destruct (render_matches before st), (render_matches after st); try done.
    by destruct b.
Qed.

Lemma render_matches_skip st code c before after :
  state_ok st →
  matchesAllFilters st c = Normal false →
  render_matches (before ++ (code, c) :: after) st
  = render_matches (before ++ after) st.
Proof.
  intros Hok Hc. rewrite !render_matches_app. simpl. rewrite Hc.
  destruct (render_matches before st); [|done].
  by destruct (render_matches after st).
Qed.

(** ** Examples from the specification *)

Example cameras_ABC_matches_AB :
  matchesAllFilters (example_state "cameras" ["A"; "B"])
                    {[ "cameras" := Sequence ["A"; "B"; "C"] ]} = Normal true.
Proof. reflexivity. Qed.

Example cameras_ABC_fails_AD :
  matchesAllFilters (example_state "cameras" ["A"; "D"])
                    {[ "cameras" := Sequence ["A"; "B"; "C"] ]} = Normal false.
Proof. reflexivity. Qed.

Example driving_right_matches_right_left :
  matchesAllFilters (example_state "driving" ["right"; "left"])
                    {[ "driving" := Scalar "right" ]} = Normal true.
Proof. reflexivity. Qed.

Example driving_right_fails_left :
  matchesAllFilters (example_state "driving" ["left"])
                    {[ "driving" := Scalar "right" ]} = Normal false.
Proof. reflexivity. Qed.

(** ** Sequence facets: a subset test *)

(** C2.  For a facet with a non-empty selection and a country whose value for
    that facet is an array, the facet's turn of the loop passes exactly when
    every selected value occurs in the array; and the country matches all the
    filters exactly when that holds and the other facets pass too. *)
Theorem sequence_facet_is_subset_test
  (st : State) (country : Country) (f : Facet) (sel : JsSet) (arr : list string) :
  state_ok st → f ∈ FACETS →
  st !! key f = Some sel → sel ≠ [] →
  country !! key f = Some (Sequence arr) →
  (facet_passes sel (country !! key f) = true ↔ ∀ x, x ∈ sel → x ∈ arr)
  ∧ (matchesAllFilters st country = Normal true
     ↔ (∀ x, x ∈ sel → x ∈ arr)
       ∧ ∀ g sel', g ∈ FACETS → key g ≠ key f → st !! key g = Some sel' →
                   facet_passes sel' (country !! key g) = true).
Proof.
  intros Hok Hf Hsel Hne Hval.
  assert (Hturn : facet_passes sel (country !! key f) = true
                  ↔ ∀ x, x ∈ sel → x ∈ arr).
  { rewrite Hval, facet_passes_nonempty by done. apply forallb_includes. }
  split; [done|].
  rewrite matchesAllFilters_true_iff by done. split.
  - intros H. split.
    + apply Hturn. by apply H.
    + intros g sel' Hg _ Hsel'. by apply H.
  - intros [Hsub Hothers] g sel' Hg Hsel'.
    destruct (decide (key g = key f)) as [Heq|Hneq].
    + rewrite Heq in *. replace sel' with sel by congruence. by apply Hturn.
    + by apply Hothers.
Qed.

Lemma sequence_facet_is_subset_test_witness :
  let st := example_state "cameras" ["A"; "B"] in
  let country : Country := {[ "cameras" := Sequence ["A"; "B"; "C"] ]} in
  let f := {| key := "cameras"; type := "array" |} in
  (state_ok st ∧ f ∈ FACETS ∧ st !! key f = Some ["A"; "B"] ∧ ["A"; "B"] ≠ []
   ∧ country !! key f = Some (Sequence ["A"; "B"; "C"]))
  ∧ (facet_passes ["A"; "B"] (country !! key f) = true
     ↔ ∀ x, x ∈ ["A"; "B"] → x ∈ ["A"; "B"; "C"])
  ∧ (matchesAllFilters st country = Normal true
     ↔ (∀ x, x ∈ ["A"; "B"] → x ∈ ["A"; "B"; "C"])
       ∧ ∀ g sel', g ∈ FACETS → key g ≠ key f → st !! key g = Some sel' →
                   facet_passes sel' (country !! key g) = true).
Proof.
  intros st country f.
  assert (H1 : state_ok st) by (apply (bool_decide_unpack _); vm_compute; exact I).
  assert (H2 : f ∈ FACETS) by left.
  assert (H3 : st !! key f = Some ["A"; "B"]) by reflexivity.
  assert (H4 : ["A"; "B"] ≠ ([] : JsSet)) by discriminate.
  assert (H5 : country !! key f = Some (Sequence ["A"; "B"; "C"])) by reflexivity.
  split; [done|].
  exact (sequence_facet_is_subset_test st country f _ _ H1 H2 H3 H4 H5).
Defined.

(** ** Scalar facets: a membership test, on non-empty scalars *)

(** C3, as the code has it.  For a facet with a non-empty selection and a
    country whose value for that facet is a non-empty string, the facet's turn
    of the loop passes exactly when the string is one of the selected values;
    and the country matches all the filters exactly when that holds and the
    other facets pass too. *)
Theorem scalar_facet_is_membership_test
  (st : State) (country : Country) (f : Facet) (sel : JsSet) (s : string) :
  state_ok st → f ∈ FACETS →
  st !! key f = Some sel → sel ≠ [] →
  country !! key f = Some (Scalar s) → s ≠ "" →
  (facet_passes sel (country !! key f) = true ↔ s ∈ sel)
  ∧ (matchesAllFilters st country = Normal true
     ↔ s ∈ sel
       ∧ ∀ g sel', g ∈ FACETS → key g ≠ key f → st !! key g = Some sel' →
                   facet_passes sel' (country !! key g) = true).
Proof.
  intros Hok Hf Hsel Hne Hval Hs.
  assert (Hturn : facet_passes sel (country !! key f) = true ↔ s ∈ sel).
  { rewrite Hval, facet_passes_nonempty by done.
    rewrite bool_decide_eq_false_2 by done. simpl.
    unfold set_has. apply bool_decide_eq_true. }
  split; [done|].
  rewrite matchesAllFilters_true_iff by done. split.
  - intros H. split.
    + apply Hturn. by apply H.
    + intros g sel' Hg _ Hsel'. by apply H.
  - intros [Hin Hothers] g sel' Hg Hsel'.
    destruct (decide (key g = key f)) as [Heq|Hneq].
    + rewrite Heq in *. replace sel' with sel by congruence. by apply Hturn.
    + by apply Hothers.
Qed.

Lemma scalar_facet_is_membership_test_witness :
  let st := example_state "driving" ["right"; "left"] in
  let country : Country := {[ "driving" := Scalar "right" ]} in
  let f := {| key := "driving"; type := "array" |} in
  (state_ok st ∧ f ∈ FACETS ∧ st !! key f = Some ["right"; "left"]
   ∧ ["right"; "left"] ≠ []
   ∧ country !! key f = Some (Scalar "right") ∧ "right" ≠ "")
  ∧ (facet_passes ["right"; "left"] (country !! key f) = true
     ↔ "right" ∈ ["right"; "left"])
  ∧ (matchesAllFilters st country = Normal true
     ↔ "right" ∈ ["right"; "left"]
       ∧ ∀ g sel', g ∈ FACETS → key g ≠ key f → st !! key g = Some sel' →
                   facet_passes sel' (country !! key g) = true).
Proof.
  intros st country f.
  assert (H1 : state_ok st) by (apply (bool_decide_unpack _); vm_compute; exact I).
  assert (H2 : f ∈ FACETS) by (right; left).
  assert (H3 : st !! key f = Some ["right"; "left"]) by reflexivity.
  assert (H4 : ["right"; "left"] ≠ ([] : JsSet)) by discriminate.
  assert (H5 : country !! key f = Some (Scalar "right")) by reflexivity.
  assert (H6 : "right" ≠ "") by discriminate.
  split; [done|].
  exact (scalar_facet_is_membership_test st country f _ _ H1 H2 H3 H4 H5 H6).
Defined.

(** C3, as stated, fails on the empty string: with [driving: ""] in the
    record and the empty string selected for [driving] (the only active
    facet), the scalar is a member of the selection and the country is
    rejected all the same, by the guard [if (!val) return false]. *)
Lemma empty_scalar_is_selected_and_rejected :
  let st := example_state "driving" [""] in
  let country : Country := {[ "driving" := Scalar "" ]} in
  state_ok st
  ∧ st !! "driving" = Some [""]
  ∧ country !! "driving" = Some (Scalar "")
  ∧ "" ∈ [""]
  ∧ facet_passes [""] (country !! "driving") = false
  ∧ matchesAllFilters st country = Normal false
  ∧ ¬ (facet_passes [""] (country !! "driving") = true ↔ "" ∈ [""]).
Proof.
  intros st country.
  split; [apply (bool_decide_unpack _); vm_compute; exact I|].
  do 2 (split; [reflexivity|]).
  split; [left|]. do 2 (split; [reflexivity|]).
  intros [_ H]. discriminate H. left.
Qed.

(** ** A missing value excludes the country *)

(** C4.  When a facet has a non-empty selection, a country with no value for
    that facet fails [matchesAllFilters], whatever the other facets say, and
    the match list is the one computed without that country. *)
Theorem absent_facet_value_excludes
  (st : State) (country : Country) (f : Facet) (sel : JsSet) :
  state_ok st → f ∈ FACETS →
  st !! key f = Some sel → sel ≠ [] →
  country !! key f = None →
  matchesAllFilters st country = Normal false
  ∧ ∀ code before after,
      render_matches (before ++ (code, country) :: after) st
      = render_matches (before ++ after) st.
Proof.
  intros Hok Hf Hsel Hne Hval.
  assert (Hfail : matchesAllFilters st country = Normal false).
  { apply (matchesAllFilters_false_of st country f sel); try done.
    by rewrite Hval, facet_passes_nonempty. }
  split; [done|]. intros code before after. by apply render_matches_skip.
Qed.

Lemma absent_facet_value_excludes_witness :
  let st := example_state "cameras" ["mirror"] in
  let country : Country := {[ "driving" := Scalar "right" ]} in
  let f := {| key := "cameras"; type := "array" |} in
  (state_ok st ∧ f ∈ FACETS ∧ st !! key f = Some ["mirror"] ∧ ["mirror"] ≠ []
   ∧ country !! key f = None)
  ∧ matchesAllFilters st country = Normal false
  ∧ ∀ code before after,
      render_matches (before ++ (code, country) :: after) st
      = render_matches (before ++ after) st.
Proof.
  intros st country f.
  assert (H1 : state_ok st) by (apply (bool_decide_unpack _); vm_compute; exact I).
  assert (H2 : f ∈ FACETS) by left.
  assert (H3 : st !! key f = Some ["mirror"]) by reflexivity.
  assert (H4 : ["mirror"] ≠ ([] : JsSet)) by discriminate.
  assert (H5 : country !! key f = None) by reflexivity.
  split; [done|].
  exact (absent_facet_value_excludes st country f _ H1 H2 H3 H4 H5).
Defined.

(** ** Conjunctive filtering *)

Lemma matchesAllFilters_all_empty st country :
  all_empty st → matchesAllFilters st country = Normal true.
Proof.
  intros Hempty. apply matchesAllFilters_true_iff; [by apply all_empty_ok|].
  intros f sel Hf Hsel.
  rewrite (all_empty_lookup st f Hempty Hf) in Hsel.
  by injection Hsel as <-.
Qed.

Lemma render_matches_all_empty C st :
  all_empty st → render_matches C st = Normal (all_matches C).
Proof.
  intros Hempty. induction C as [|[code c] C IH]; simpl; [done|].
  by rewrite matchesAllFilters_all_empty, IH.
Qed.

(** A state that accepts no more of the entries than another yields a sublist
    of its matches. *)
Lemma render_matches_mono_in C st st' :
  state_ok st → state_ok st' →
  (∀ entry, entry ∈ C → matchesAllFilters st' entry.2 = Normal true →
            matchesAllFilters st entry.2 = Normal true) →
  ∃ ms ms', render_matches C st = Normal ms
            ∧ render_matches C st' = Normal ms'
            ∧ ms' `sublist_of` ms.
Proof.
  intros Hok Hok' Himp. induction C as [|[code c] C IH]; simpl.
  - by exists [], [].
  - destruct IH as (ms & ms' & -> & -> & Hsub).
    { intros entry He. apply Himp. by right. }
    destruct (matchesAllFilters_total st' c Hok') as [b' Hb']. rewrite Hb'.
    destruct b'.
    + pose proof (Himp (code, c) (list_elem_of_here _ _) Hb') as Hc.
      simpl in Hc. rewrite Hc.
      eexists _, _. repeat split. by constructor.
    + destruct (matchesAllFilters_total st c Hok) as [b ->].
      eexists _, _. repeat split. destruct b; [by constructor|done].
Qed.

Lemma render_matches_mono C st st' :
  state_ok st → state_ok st' →
  (∀ c, matchesAllFilters st' c = Normal true → matchesAllFilters st c = Normal true) →
  ∃ ms ms', render_matches C st = Normal ms
            ∧ render_matches C st' = Normal ms'
            ∧ ms' `sublist_of` ms.
Proof.
  intros Hok Hok' Himp. apply render_matches_mono_in; [done|done|].
  intros entry _. apply Himp.
Qed.

Lemma state_ok_insert st k sel : state_ok st → state_ok (<[k := sel]> st).
Proof.
  intros Hok. eapply Forall_impl; [exact Hok|]. intros f Hf. simpl.
  rewrite lookup_insert_is_Some. destruct (decide (k = key f)); auto.
Qed.

(** Giving a selection to a facet that had none only removes matches. *)
Lemma matchesAllFilters_activate st k sel country :
  state_ok st → st !! k = Some [] →
  matchesAllFilters (<[k := sel]> st) country = Normal true →
  matchesAllFilters st country = Normal true.
Proof.
  intros Hok Hk H.
  apply matchesAllFilters_true_iff; [done|]. intros f sel0 Hf Hsel0.
  destruct (decide (k = key f)) as [->|Hne].
  - rewrite Hk in Hsel0. by injection Hsel0 as <-.
  - apply (proj1 (matchesAllFilters_true_iff _ _ (state_ok_insert st k sel Hok)) H f);
      [done|]. by rewrite lookup_insert_ne.
Qed.

(** *** [clearAll] *)

Lemma forEach_clear facets w :
  (∀ f, f ∈ facets → is_Some (state w !! key f)) →
  forEach facets (λ f, with_set (key f) set_clear) w
  = Ret tt (set_state (foldl (λ acc f, <[key f := []]> acc) (state w) facets) w).
Proof.
  revert w. induction facets as [|f facets IH]; intros w Hok; simpl.
  - by destruct w.
  - unfold bind, with_set at 1.
    destruct (Hok f) as [sel Hsel]; [left|]. rewrite Hsel.
    rewrite IH; [done|].
    intros g Hg. simpl. rewrite lookup_insert_is_Some.
    destruct (decide (key f = key g)); [by left|right].
    split; [done|]. apply Hok. by right.
Qed.

(** *** [render] *)

(** [render] writes the matches and nothing else, also when one of the views
    throws. *)
Lemma render_final w :
  metas (final (render w)) = metas w
  ∧ state (final (render w)) = state w
  ∧ location_hash (final (render w)) = location_hash w
  ∧ checkboxes (final (render w)) = checkboxes w
  ∧ modal (final (render w)) = modal w
  ∧ hidden_handlers (final (render w)) = hidden_handlers w
  ∧ trMap (final (render w)) = trMap w
  ∧ host (final (render w)) = host w
  ∧ ∀ ms, render_matches (metas w) (state w) = Normal ms →
          matches (final (render w)) = ms.
Proof.
  unfold render, bind, gets, lift, modify.
  destruct (render_matches (metas w) (state w)) as [ms|e]; simpl.
  - destruct (recolorMap ms); simpl;
      [destruct (renderCountryList (host w) (trMap w) ms); simpl|];
      repeat split; by intros ms' [= <-].
  - repeat split. by intros ms' [=].
Qed.

(** When [render] returns: the match loop, [recolorMap] and
    [renderCountryList] all do. *)
Lemma render_outcome w ms :
  render_matches (metas w) (state w) = Normal ms →
  recolorMap ms = Normal tt →
  renderCountryList (host w) (trMap w) ms = Normal tt →
  outcome (render w) = None.
Proof.
  intros Hms Hmap Hlist. unfold render, bind, gets, lift, modify.
  rewrite Hms. simpl. rewrite Hmap. simpl. by rewrite Hlist.
Qed.

Lemma serializeStateToHash_final countryCode w :
  outcome (serializeStateToHash countryCode w) = None
  ∧ metas (final (serializeStateToHash countryCode w)) = metas w
  ∧ state (final (serializeStateToHash countryCode w)) = state w
  ∧ checkboxes (final (serializeStateToHash countryCode w)) = checkboxes w.
Proof. done. Qed.

Lemma clearAll_render w :
  state_ok (state w) →
  ∃ w', clearAll w = render w'
        ∧ state w' = init_state (state w)
        ∧ metas w' = metas w
        ∧ checkboxes w' = map uncheck (checkboxes w)
        ∧ modal w' = modal w
        ∧ location_hash w'
          = location_hash_after_set
              ("#!" +:+ join (omap (facet_param (init_state (state w))) FACETS
                              ++ country_param None) "&").
Proof.
  intros Hok. unfold clearAll, bind at 1.
  rewrite forEach_clear by (intros f; by apply state_ok_lookup).
  unfold bind at 1. unfold modify at 1. unfold bind at 1.
  unfold serializeStateToHash at 1. unfold bind at 1. unfold gets at 1.
  unfold modify at 1. eexists. split; [reflexivity|]. done.
Qed.

Lemma clearAll_spec w :
  state_ok (state w) →
  state (final (clearAll w)) = init_state (state w)
  ∧ metas (final (clearAll w)) = metas w
  ∧ matches (final (clearAll w)) = all_matches (metas w).
Proof.
  intros Hok.
  destruct (clearAll_render w Hok) as (w' & -> & Hst & Hm & _).
  destruct (render_final w') as (H0 & H1 & _ & _ & _ & _ & _ & _ & H8).
  rewrite H0, H1, Hst, Hm. repeat split.
  apply H8. rewrite Hst, Hm. apply render_matches_all_empty, init_state_all_empty.
Qed.

(** One more value in the selection of a facet asks more of a record whose
    value for the facet is an array, and nothing of one that has no value. *)
Lemma facet_passes_one_more sel v val :
  bare_string val = false →
  facet_passes (set_add sel v) val = true → facet_passes sel val = true.
Proof.
  intros Hval. unfold facet_passes.
  destruct (bool_decide (set_size sel = 0%nat)); [done|].
  rewrite (bool_decide_eq_false_2 (set_size (set_add sel v) = 0%nat)).
  - destruct val as [[s|arr]|]; simpl in *.
    + destruct (bool_decide (s = "")); simpl in *; [by intros ?|discriminate].
    + rewrite !forallb_forall. intros H x Hx. apply H.
      apply list_elem_of_In, elem_of_set_add. left. by apply list_elem_of_In.
    + done.
  - unfold set_size, set_add. destruct (set_has sel v) eqn:Hhas.
    + intros H. destruct sel; [|done]. unfold set_has in Hhas.
      apply bool_decide_eq_true in Hhas. by apply elem_of_nil in Hhas.
    + rewrite length_app. simpl. lia.
Qed.

Lemma matchesAllFilters_one_more st k sel v country :
  state_ok st → st !! k = Some sel →
  bare_string (country !! k) = false →
  matchesAllFilters (<[k := set_add sel v]> st) country = Normal true →
  matchesAllFilters st country = Normal true.
Proof.
  intros Hok Hk Hval H.
  apply matchesAllFilters_true_iff; [done|]. intros f sel0 Hf Hsel0.
  pose proof (proj1 (matchesAllFilters_true_iff _ _
                       (state_ok_insert st k (set_add sel v) Hok)) H f) as Hf'.
  destruct (decide (k = key f)) as [->|Hne].
  - rewrite Hk in Hsel0. injection Hsel0 as <-.
    apply (facet_passes_one_more sel v); [done|].
    apply Hf'; [done|]. by rewrite lookup_insert_eq.
  - apply Hf'; [done|]. by rewrite lookup_insert_ne.
Qed.

(** C5, as the code has it.  Under any filter state the match list is a
    sublist of the dataset's entries, which is what every all-empty state
    yields, the one left by [clearAll] included.  A further constraint yields
    a sublist of the matches before: a selection given to a facet that had
    none, and one more value in the selection of a facet for which no record
    of the dataset holds a string. *)
Theorem conjunctive_filtering (C : Metas) (st : State) :
  state_ok st →
  (∀ st0, all_empty st0 → render_matches C st0 = Normal (all_matches C))
  ∧ (∃ ms, render_matches C st = Normal ms ∧ ms `sublist_of` all_matches C)
  ∧ (∀ k sel, st !! k = Some [] →
       ∃ ms ms', render_matches C st = Normal ms
                 ∧ render_matches C (<[k := sel]> st) = Normal ms'
                 ∧ ms' `sublist_of` ms)
  ∧ (∀ k sel v, st !! k = Some sel →
       (∀ entry, entry ∈ C → bare_string (entry.2 !! k) = false) →
       ∃ ms ms', render_matches C st = Normal ms
                 ∧ render_matches C (<[k := set_add sel v]> st) = Normal ms'
                 ∧ ms' `sublist_of` ms)
  ∧ (∀ w, state w = st → metas w = C →
       let after := final (clearAll w) in
       all_empty (state after)
       ∧ render_matches C (state after) = Normal (all_matches C)
       ∧ matches after = all_matches C).
Proof.
  intros Hok. split; [|split; [|split; [|split]]].
  - intros st0. apply render_matches_all_empty.
  - destruct (render_matches_mono C (init_state st) st) as (ms & ms' & H1 & H2 & Hsub).
    + apply all_empty_ok, init_state_all_empty.
    + done.
    + intros c _. apply matchesAllFilters_all_empty, init_state_all_empty.
    + rewrite render_matches_all_empty in H1 by apply init_state_all_empty.
      injection H1 as <-. eauto.
  - intros k sel Hk.
    apply render_matches_mono; [done|by apply state_ok_insert|].
    intros c. by apply matchesAllFilters_activate.
  - intros k sel v Hk Hvals.
    apply render_matches_mono_in; [done|by apply state_ok_insert|].
    intros entry He. apply (matchesAllFilters_one_more st k sel v); auto.
  - intros w <- <- after.
    destruct (clearAll_spec w Hok) as (Hst & Hmetas & Hms).
    assert (Hempty : all_empty (state after))
      by (unfold after; rewrite Hst; apply init_state_all_empty).
    split; [done|]. split; [|done]. by apply render_matches_all_empty.
Qed.

Example scenario_driving_left :
  render_matches scenario (example_state "driving" ["left"])
  = Normal [match_record "JP" JP].
Proof. reflexivity. Qed.

Example scenario_driving_left_cameras_mirror :
  render_matches scenario
    (<["cameras" := ["mirror"]]> (example_state "driving" ["left"]))
  = Normal [match_record "JP" JP].
Proof. reflexivity. Qed.

Example scenario_cameras_mirror :
  render_matches scenario (example_state "cameras" ["mirror"])
  = Normal [match_record "JP" JP].
Proof. reflexivity. Qed.

Example scenario_cleared :
  render_matches scenario (init_state ∅)
  = Normal [match_record "FR" FR; match_record "JP" JP].
Proof. reflexivity. Qed.

(** C5, as stated, fails where the further constraint is one more value on a
    facet whose values are strings: in the scenario of the specification the
    selection [driving = {left}] matches Japan, and with [right] added to it
    France is matched too. *)
Lemma one_more_value_on_a_string_facet_admits_more :
  let st := example_state "driving" ["left"] in
  let st' := <["driving" := set_add ["left"] "right"]> st in
  state_ok st
  ∧ st !! "driving" = Some ["left"]
  ∧ render_matches scenario st = Normal [match_record "JP" JP]
  ∧ render_matches scenario st'
    = Normal [match_record "FR" FR; match_record "JP" JP]
  ∧ ¬ ([match_record "FR" FR; match_record "JP" JP]
       `sublist_of` [match_record "JP" JP]).
Proof.
  intros st st'. split; [apply (bool_decide_unpack _); vm_compute; exact I|].
  repeat split; try reflexivity.
  intros H. apply sublist_length in H. simpl in H. lia.
Qed.

Lemma conjunctive_filtering_witness :
  let st := example_state "driving" ["left"] in
  state_ok st
  ∧ (∀ st0, all_empty st0 → render_matches scenario st0 = Normal (all_matches scenario))
  ∧ (∃ ms, render_matches scenario st = Normal ms
           ∧ ms `sublist_of` all_matches scenario)
  ∧ (∀ k sel, st !! k = Some [] →
       ∃ ms ms', render_matches scenario st = Normal ms
                 ∧ render_matches scenario (<[k := sel]> st) = Normal ms'
                 ∧ ms' `sublist_of` ms)
  ∧ (∀ k sel v, st !! k = Some sel →
       (∀ entry, entry ∈ scenario → bare_string (entry.2 !! k) = false) →
       ∃ ms ms', render_matches scenario st = Normal ms
                 ∧ render_matches scenario (<[k := set_add sel v]> st) = Normal ms'
                 ∧ ms' `sublist_of` ms)
  ∧ (∀ w, state w = st → metas w = scenario →
       let after := final (clearAll w) in
       all_empty (state after)
       ∧ render_matches scenario (state after) = Normal (all_matches scenario)
       ∧ matches after = all_matches scenario).
Proof.
  intros st.
  assert (H1 : state_ok st) by (apply (bool_decide_unpack _); vm_compute; exact I).
  split; [done|].
  exact (conjunctive_filtering scenario st H1).
Defined.
(** * Properties of the views *)

(** ** When the markup can be written *)

Lemma renderFacetLine_completes h trMap labelKey arr :
  completes (renderFacetLine h trMap labelKey arr) = negb (bare_string arr).
Proof.
  unfold renderFacetLine, bare_string.
  destruct arr as [[s|vs]|]; [|by case_bool_decide|done].
  by case_bool_decide.
Qed.

Lemma renderFacetLine_error h trMap labelKey arr e :
  renderFacetLine h trMap labelKey arr = Throw e → e = TypeError.
Proof.
  unfold renderFacetLine.
  destruct arr as [[s|vs]|]; [|by case_bool_decide|done].
  case_bool_decide; [done|]. by intros [= <-].
Qed.

Lemma facet_lines_completes h trMap indent keys c :
  completes (facet_lines h trMap indent keys c)
  = forallb (λ k, negb (bare_string (c !! k))) keys.
Proof.
  induction keys as [|k keys IH]; simpl; [done|].
  rewrite <- IH, <- (renderFacetLine_completes h trMap k).
  destruct (renderFacetLine h trMap k (c !! k)); [|done].
  by destruct (facet_lines h trMap indent keys c).
Qed.

Lemma facet_lines_error h trMap indent keys c e :
  facet_lines h trMap indent keys c = Throw e → e = TypeError.
Proof.
  induction keys as [|k keys IH]; simpl; [done|].
  destruct (renderFacetLine h trMap k (c !! k)) eqn:Hk.
  - destruct (facet_lines h trMap indent keys c); [done|]. intros [= <-]. by apply IH.
  - intros [= <-]. by apply renderFacetLine_error in Hk.
Qed.

Lemma modal_body_outcome h trMap code country :
  if forallb (λ k, negb (bare_string (country !! k))) modal_keys
  then ∃ html, modal_body h trMap code country = Normal html
  else modal_body h trMap code country = Throw TypeError.
Proof.
  rewrite <- (facet_lines_completes h trMap "        "). unfold modal_body.
  pose proof (facet_lines_error h trMap "        " modal_keys country) as He.
  destruct (facet_lines h trMap "        " modal_keys country) as [ls|e];
    cbn [completes].
  - by eexists.
  - by rewrite (He e).
Qed.

Lemma country_card_outcome h trMap c :
  if match c !! "code" with Some (Scalar _) => true | _ => false end
     && forallb (λ k, negb (bare_string (c !! k))) card_keys
  then ∃ html, country_card h trMap c = Normal html
  else country_card h trMap c = Throw TypeError.
Proof.
  rewrite <- (facet_lines_completes h trMap "              "). unfold country_card.
  pose proof (facet_lines_error h trMap "              " card_keys c) as He.
  destruct (facet_lines h trMap "              " card_keys c) as [ls|e];
    destruct (c !! "code") as [[code|?]|]; cbn [completes andb]; try done.
  - by eexists.
  - by rewrite (He e).
Qed.

(** ** [showCountryModal], step by step *)

Lemma serializeStateToHash_run countryCode w :
  serializeStateToHash countryCode w
  = Ret tt (set_location_hash
              (location_hash_after_set
                 ("#!" +:+ join (omap (facet_param (state w)) FACETS
                                 ++ country_param countryCode) "&")) w).
Proof. done. Qed.

Lemma showCountryModal_run code updateHash w :
  showCountryModal code updateHash w
  = match found (host w) (metas w) code with
    | Some country =>
        if forallb (λ k, negb (bare_string (country !! k))) modal_keys
        then Ret tt (modal_opened code updateHash country w)
        else Raise TypeError w
    | None => Ret tt w
    end.
Proof.
  unfold showCountryModal, found, bind at 1. unfold gets at 1.
  unfold bind at 1. unfold gets at 1. unfold bind at 1. unfold gets at 1.
  destruct (match metas_get (metas w) (toUpperCase (host w) code) with
            | Some c => Some c
            | None => metas_get (metas w) code
            end) as [country|]; [|done].
  pose proof (modal_body_outcome (host w) (trMap w) code country) as Hbody.
  unfold bind at 1. unfold lift at 1.
  destruct (forallb _ modal_keys).
  - destruct Hbody as [html ->]. unfold modal_opened. by destruct updateHash.
  - by rewrite Hbody.
Qed.
(** * Properties of the hashbang codec *)

Lemma append_nil_l (s : string) : "" +:+ s = s.
Proof. done. Qed.

Lemma append_cons (c : ascii) (s t : string) : String c s +:+ t = String c (s +:+ t).
Proof. done. Qed.

Lemma append_nil_r (s : string) : s +:+ "" = s.
Proof. induction s as [|c s IH]; [done|]. by rewrite append_cons, IH. Qed.

Lemma append_assoc (s t u : string) : (s +:+ t) +:+ u = s +:+ (t +:+ u).
Proof. induction s as [|c s IH]; [done|]. by rewrite !append_cons, IH. Qed.

Lemma startsWith_spec s prefix :
  startsWith s prefix = true ↔ ∃ rest, s = prefix +:+ rest.
Proof.
  revert s. induction prefix as [|p prefix IH]; intros s; simpl.
  - split; [eauto|]. by destruct s.
  - destruct s as [|c s]; simpl.
    + split; [done|]. by intros [rest ?].
    + destruct (Ascii.eqb c p) eqn:Hc; simpl.
      * apply Ascii.eqb_eq in Hc as ->. rewrite IH. split.
        -- intros [rest ->]. by exists rest.
        -- intros [rest H]. rewrite append_cons in H. injection H as ->. eauto.
      * apply Ascii.eqb_neq in Hc. split; [done|].
        intros [rest H]. rewrite append_cons in H. congruence.
Qed.

(** ** A fragment without the sentinel *)

(** C8.  When [window.location.hash] does not begin with [#!],
    [parseHashToState] returns at once: the selections, the checkboxes, the
    modal and everything else are as they were. *)
Theorem parse_without_sentinel_is_noop (w : App) :
  (¬ ∃ rest, location_hash w = "#!" +:+ rest) →
  parseHashToState w = Ret tt w.
Proof.
  intros Hno. unfold parseHashToState, bind, gets.
  destruct (startsWith (location_hash w) "#!") eqn:Hs; [|done].
  exfalso. apply Hno. by apply startsWith_spec.
Qed.

Lemma parse_without_sentinel_is_noop_witness :
  let w := page scenario (example_state "driving" ["left"]) "#map" in
  (¬ ∃ rest, location_hash w = "#!" +:+ rest)
  ∧ parseHashToState w = Ret tt w.
Proof.
  intros w.
  assert (H : ¬ ∃ rest, location_hash w = "#!" +:+ rest).
  { rewrite <- startsWith_spec. simpl. discriminate. }
  split; [exact H|].
  exact (parse_without_sentinel_is_noop w H).
Defined.
(** ** The country modal *)

Lemma found_none h m code :
  found h m code = None
  ↔ metas_own m (toUpperCase h code) = None ∧ inherited (toUpperCase h code) = false
    ∧ metas_own m code = None ∧ inherited code = false.
Proof.
  unfold found, metas_get.
  destruct (metas_own m (toUpperCase h code)) as [c|].
  { split; [done|]. by intros [? _]. }
  destruct (inherited (toUpperCase h code)).
  { split; [done|]. by intros (_ & ? & _). }
  destruct (metas_own m code) as [c|].
  { split; [done|]. by intros (_ & _ & ? & _). }
  destruct (inherited code); [|done].
  split; [done|]. by intros (_ & _ & _ & ?).
Qed.

(** C6, as the code has it.  [showCountryModal] reads the dataset at the
    upper-cased code and, failing that, at the code as given.  What it finds
    is shown, with the fragment written when asked and one handler
    registered, unless the body cannot be written: a facet that is a string
    makes the call throw before anything is shown or written.  When nothing
    is found the call returns and leaves the page as it was.  A record stored
    under an upper-case key is found from any casing of its code; nothing is
    found exactly when no record is stored under either spelling and neither
    is a name of [Object.prototype]. *)
Theorem modal_lookup_upper_then_raw (w : App) (code : string) (updateHash : bool) :
  match found (host w) (metas w) code with
  | Some country =>
      if forallb (λ k, negb (bare_string (country !! k))) modal_keys
      then showCountryModal code updateHash w
           = Ret tt (modal_opened code updateHash country w)
      else showCountryModal code updateHash w = Raise TypeError w
  | None => showCountryModal code updateHash w = Ret tt w
  end
  ∧ (∀ country, metas_own (metas w) (toUpperCase (host w) code) = Some country →
       found (host w) (metas w) code = Some country)
  ∧ (∀ country, metas_get (metas w) (toUpperCase (host w) code) = None →
       metas_own (metas w) code = Some country →
       found (host w) (metas w) code = Some country)
  ∧ (found (host w) (metas w) code = None
     ↔ metas_own (metas w) (toUpperCase (host w) code) = None
       ∧ inherited (toUpperCase (host w) code) = false
       ∧ metas_own (metas w) code = None ∧ inherited code = false)
  ∧ (inherited code = true → is_Some (found (host w) (metas w) code)).
Proof.
  split; [|split; [|split; [|split]]].
  - rewrite showCountryModal_run.
    destruct (found (host w) (metas w) code) as [country|]; [|done].
    by destruct (forallb _ modal_keys).
  - intros country H. unfold found, metas_get. by rewrite H.
  - intros country H1 H2. unfold found. rewrite H1. unfold metas_get. by rewrite H2.
  - apply found_none.
  - intros Hin. destruct (found (host w) (metas w) code) eqn:Hf; [by eexists|].
    apply found_none in Hf as (_ & _ & _ & ?). congruence.
Qed.

(** C6, as stated, fails twice.  With a record stored under [de], the code
    [DE] names it up to letter case and opens nothing, while the code [de]
    opens the modal.  And the code [constructor], under which no record is
    stored, is not a silent no-op: the dataset inherits a member of that name,
    and the modal is shown for it. *)
Lemma lower_case_key_not_found_from_upper_case_code :
  let w := page [("de", DE)] (init_state ∅) "" in
  lookup_ignoring_case (host w) (metas w) "DE" = Some DE
  ∧ showCountryModal "DE" false w = Ret tt w
  ∧ showCountryModal "de" false w = Ret tt (modal_opened "de" false DE w)
  ∧ modal (modal_opened "de" false DE w)
    = Some {| modal_code := "DE"; modal_country := DE |}
  ∧ lookup_ignoring_case (host w) (metas w) "constructor" = None
  ∧ metas_own (metas w) "constructor" = None
  ∧ outcome (showCountryModal "constructor" false w) = None
  ∧ modal (final (showCountryModal "constructor" false w))
    = Some {| modal_code := "CONSTRUCTOR";
              modal_country := {[ "name" := Scalar "Object" ]} |}.
Proof. intros w. repeat split; reflexivity. Qed.
(** ** Reading the fragment *)

Lemma parseHashToState_unfold w :
  parseHashToState w
  = if startsWith (location_hash w) "#!"
    then restore_from (hash_params (location_hash w)) w
    else Ret tt w.
Proof.
  unfold parseHashToState, bind at 1. unfold gets at 1.
  by destruct (startsWith (location_hash w) "#!").
Qed.





(** *** Changing the fragment under the reader *)









(** *** Splitting and joining *)

Lemma split_nonempty s sep : ∃ piece pieces, split s sep = piece :: pieces.
Proof.
  induction s as [|c s (piece & pieces & IH)]; simpl; [by eauto|].
  destruct (Ascii.eqb c sep); [by eauto|]. rewrite IH. eauto.
Qed.

Lemma split_without s sep : contains s sep = false → split s sep = [s].
Proof.
  induction s as [|c s IH]; simpl; [done|].
  destruct (Ascii.eqb c sep); simpl; [done|]. by intros ->%IH.
Qed.

Lemma split_append s t sep :
  split (s +:+ String sep t) sep = split s sep ++ split t sep.
Proof.
  induction s as [|c s IH].
  - rewrite append_nil_l. simpl. by rewrite Ascii.eqb_refl.
  - rewrite append_cons. simpl. rewrite IH.
    destruct (Ascii.eqb c sep); [done|].
    by destruct (split_nonempty s sep) as (piece & pieces & ->).
Qed.

Lemma replace_amp_id s : replace_amp s = s.
Proof.
  induction s as [|c s IH]; simpl; [done|]. rewrite IH.
  destruct (Ascii.eqb c "&") eqn:Hc; [|done].
  by apply Ascii.eqb_eq in Hc as ->.
Qed.

(** The segments of a joined body, empty ones apart. *)
Lemma parse_urlencoded_join (segs : list string) :
  parse_urlencoded (join segs "&")
  = omap parse_sequence (flat_map (λ seg, split seg "&") segs).
Proof.
  unfold parse_urlencoded.
  induction segs as [|seg [|seg' segs] IH].
  - done.
  - simpl. by rewrite app_nil_r.
  - change (join (seg :: seg' :: segs) "&")
      with (seg +:+ String "&" (join (seg' :: segs) "&")).
    rewrite split_append, omap_app, IH. simpl. by rewrite !omap_app.
Qed.

Lemma URLSearchParams_no_question init :
  startsWith init "?" = false → URLSearchParams init = parse_urlencoded init.
Proof.
  unfold URLSearchParams. destruct init as [|c init]; simpl; [done|].
  by destruct (Ascii.eqb c "?").
Qed.


Lemma hash_params_sentinel body :
  startsWith body "?" = false →
  hash_params ("#!" +:+ body) = parse_urlencoded body.
Proof.
  intros Hq. unfold hash_params.
  change (slice ("#!" +:+ body) 2) with body.
  by rewrite replace_amp_id, URLSearchParams_no_question.
Qed.


(** ** The loop over the facets *)

Lemma elem_of_foldl_set_add sel vs x :
  x ∈ foldl set_add sel vs ↔ x ∈ sel ∨ x ∈ vs.
Proof.
  revert sel. induction vs as [|v vs IH]; intros sel; simpl.
  - rewrite elem_of_nil. tauto.
  - rewrite IH, elem_of_cons. unfold set_add, set_has.
    case_bool_decide as Hv.
    + split; [tauto|]. intros [?|[->|?]]; tauto.
    + rewrite elem_of_app, list_elem_of_singleton. tauto.
Qed.


Lemma set_state_id w : set_state (state w) w = w.
Proof. by destruct w. Qed.

Lemma forEach_add_decoded k vals ds sel w :
  state w !! k = Some sel →
  decode_all vals = Normal ds →
  forEach vals (add_decoded k) w
  = Ret tt (set_state (<[k := foldl set_add sel ds]> (state w)) w).
Proof.
  revert ds sel w. induction vals as [|v vals IH]; intros ds sel w Hsel Hds; simpl in *.
  - injection Hds as <-. simpl. by rewrite insert_id, set_state_id.
  - unfold bind, add_decoded at 1. rewrite Hsel.
    destruct (decodeURIComponent v) as [d|e]; [|done].
    destruct (decode_all vals) as [ds'|e]; [|done].
    injection Hds as <-.
    rewrite (IH ds' (set_add sel d)); simpl.
    + by rewrite insert_insert_eq.
    + by rewrite lookup_insert_eq.
    + done.
Qed.

(** One turn of the loop of [parseHashToState]. *)
Lemma restore_facet params k sel vs w :
  state w !! k = Some sel →
  listed_values params k = Normal vs →
  (with_set k set_clear ;;
   match params_get params k with
   | Some val =>
       if bool_decide (val = "") then ret tt
       else forEach (split val ",") (add_decoded k)
   | None => ret tt
   end) w
  = Ret tt (set_state (<[k := set_of vs]> (state w)) w).
Proof.
  intros Hsel Hvs. unfold bind, with_set. rewrite Hsel.
  unfold listed_values in Hvs.
  destruct (params_get params k) as [val|].
  - case_bool_decide.
    + by injection Hvs as <-.
    + rewrite (forEach_add_decoded k _ vs []); simpl.
      * by rewrite insert_insert_eq.
      * by rewrite lookup_insert_eq.
      * done.
  - by injection Hvs as <-.
Qed.

Lemma restore_loop params facets w :
  (∀ f, f ∈ facets → is_Some (state w !! key f)) →
  (∀ f, f ∈ facets → ∃ vs, listed_values params (key f) = Normal vs) →
  forEach facets (λ facet,
    with_set (key facet) set_clear ;;
    match params_get params (key facet) with
    | Some val =>
        if bool_decide (val = "") then ret tt
        else forEach (split val ",") (add_decoded (key facet))
    | None => ret tt
    end) w
  = Ret tt (set_state
              (foldl (λ acc f, <[key f := selection_of params (key f)]> acc)
                     (state w) facets) w).
Proof.
  revert w. induction facets as [|f facets IH]; intros w Hok Hvs; simpl.
  - by rewrite set_state_id.
  - unfold bind at 1.
    destruct (Hok f) as [sel Hsel]; [left|].
    destruct (Hvs f) as [vs Hf]; [left|].
    rewrite (restore_facet params (key f) sel vs w Hsel Hf).
    assert (Hs : selection_of params (key f) = set_of vs)
      by (unfold selection_of; by rewrite Hf).
    rewrite IH; simpl.
    + by rewrite Hs.
    + intros g Hg. rewrite lookup_insert_is_Some.
      destruct (decide (key f = key g)); [by left|right].
      split; [done|]. apply Hok. by right.
    + intros g Hg. apply Hvs. by right.
Qed.

(** ** The checkboxes and the modal *)

Lemma showCountryModal_state code updateHash w :
  state (final (showCountryModal code updateHash w)) = state w.
Proof.
  rewrite showCountryModal_run.
  destruct (found (host w) (metas w) code) as [country|]; [|done].
  destruct (forallb _ modal_keys); [|done].
  unfold modal_opened. by destruct updateHash.
Qed.

Lemma restore_inputs_ordinary st inputs :
  ordinary inputs →
  restore_inputs st inputs = (map (restore_checked st) inputs, None).
Proof.
  induction 1 as [|input inputs Hin _ IH]; simpl; [done|].
  unfold restore_input, js_get. rewrite Hin, IH.
  by destruct (st !! facetKey input).
Qed.

Lemma restore_checkboxes_ordinary w :
  ordinary (checkboxes w) →
  restore_checkboxes w
  = Ret tt (set_checkboxes (map (restore_checked (state w)) (checkboxes w)) w).
Proof.
  intros H. unfold restore_checkboxes. by rewrite restore_inputs_ordinary.
Qed.

Lemma restore_checkboxes_final w :
  metas (final (restore_checkboxes w)) = metas w
  ∧ state (final (restore_checkboxes w)) = state w
  ∧ location_hash (final (restore_checkboxes w)) = location_hash w
  ∧ modal (final (restore_checkboxes w)) = modal w
  ∧ hidden_handlers (final (restore_checkboxes w)) = hidden_handlers w
  ∧ matches (final (restore_checkboxes w)) = matches w
  ∧ trMap (final (restore_checkboxes w)) = trMap w
  ∧ host (final (restore_checkboxes w)) = host w.
Proof.
  unfold restore_checkboxes.
  by destruct (restore_inputs (state w) (checkboxes w)) as [inputs [e|]].
Qed.

(** The steps of [parseHashToState] after the loop over the facets. *)
Lemma restore_tail_state params w :
  state (final ((restore_checkboxes ;;
                 match params_get params "country" with
                 | Some countryCode =>
                     if bool_decide (countryCode = "") then ret tt
                     else showCountryModal countryCode false
                 | None => ret tt
                 end) w)) = state w.
Proof.
  unfold bind. destruct (restore_checkboxes_final w) as (_ & Hst & _).
  destruct (restore_checkboxes w) as [[] w1|e w1]; simpl in *; [|done].
  destruct (params_get params "country") as [c|]; [|done].
  case_bool_decide; [done|]. by rewrite showCountryModal_state.
Qed.

(** The selections [parseHashToState] leaves, when every value the loop adds
    can be decoded. *)
Lemma restore_from_state params w :
  state_ok (state w) →
  (∀ f, f ∈ FACETS → ∃ vs, listed_values params (key f) = Normal vs) →
  state (final (restore_from params w))
  = foldl (λ acc f, <[key f := selection_of params (key f)]> acc) (state w) FACETS.
Proof.
  intros Hok Hvs. unfold restore_from, bind at 1.
  rewrite restore_loop; [|intros f; by apply state_ok_lookup|done].
  by rewrite restore_tail_state.
Qed.


Lemma restore_from_lookup params (st : State) f vs :
  f ∈ FACETS →
  listed_values params (key f) = Normal vs →
  foldl (λ acc f, <[key f := selection_of params (key f)]> acc) st FACETS !! key f
  = Some (set_of vs).
Proof.
  intros Hf Hvs. rewrite (foldl_insert_lookup (selection_of params)).
  rewrite bool_decide_eq_true_2 by (by apply list_elem_of_fmap_2).
  unfold selection_of. by rewrite Hvs.
Qed.
(** ** Every facet keeps its [Set] *)

Lemma keeps_ret {A} (a : A) : keeps_state_ok (ret a).
Proof. by intros w. Qed.

Lemma keeps_bind {A B} (m : M A) (k : A → M B) :
  keeps_state_ok m → (∀ a, keeps_state_ok (k a)) → keeps_state_ok (bind m k).
Proof.
  intros Hm Hk w Hok. unfold bind. specialize (Hm w Hok).
  destruct (m w) as [a w'|e w']; simpl in *; [by apply Hk|done].
Qed.

Lemma keeps_forEach {A} (xs : list A) (body : A → M unit) :
  (∀ x, keeps_state_ok (body x)) → keeps_state_ok (forEach xs body).
Proof.
  intros H. induction xs as [|x xs IH]; simpl.
  - apply keeps_ret.
  - apply keeps_bind; [apply H|done].
Qed.

Lemma keeps_gets {A} (f : App → A) : keeps_state_ok (gets f).
Proof. by intros w. Qed.

Lemma keeps_lift {A} (c : Completion A) : keeps_state_ok (lift c).
Proof. intros w Hok. unfold lift. by destruct c. Qed.

Lemma keeps_modify (f : App → App) :
  (∀ w, state (f w) = state w) → keeps_state_ok (modify f).
Proof. intros Hf w Hok. simpl. by rewrite Hf. Qed.

Lemma keeps_with_set k op : keeps_state_ok (with_set k op).
Proof.
  intros w Hok. unfold with_set. destruct (state w !! k); simpl; [|done].
  by apply state_ok_insert.
Qed.

Lemma keeps_add_decoded k v : keeps_state_ok (add_decoded k v).
Proof.
  intros w Hok. unfold add_decoded. destruct (state w !! k); simpl; [|done].
  destruct (decodeURIComponent v); simpl; [|done]. by apply state_ok_insert.
Qed.

Lemma keeps_serializeStateToHash countryCode :
  keeps_state_ok (serializeStateToHash countryCode).
Proof. by intros w. Qed.

Lemma keeps_render : keeps_state_ok render.
Proof.
  unfold render. apply keeps_bind; [apply keeps_gets|]. intros m.
  apply keeps_bind; [apply keeps_gets|]. intros st.
  apply keeps_bind; [apply keeps_lift|]. intros ms.
  apply keeps_bind; [by apply keeps_modify|]. intros _.
  apply keeps_bind; [apply keeps_lift|]. intros _.
  apply keeps_bind; [apply keeps_gets|]. intros h.
  apply keeps_bind; [apply keeps_gets|]. intros tr. apply keeps_lift.
Qed.

Lemma keeps_showCountryModal code updateHash :
  keeps_state_ok (showCountryModal code updateHash).
Proof.
  intros w Hok. by rewrite showCountryModal_state.
Qed.

Lemma keeps_restore_checkboxes : keeps_state_ok restore_checkboxes.
Proof.
  intros w Hok. destruct (restore_checkboxes_final w) as (_ & -> & _). done.
Qed.

Lemma keeps_parseHashToState : keeps_state_ok parseHashToState.
Proof.
  unfold parseHashToState. apply keeps_bind; [apply keeps_gets|]. intros h.
  destruct (negb (startsWith h "#!")); [apply keeps_ret|].
  apply keeps_bind.
  - apply keeps_forEach. intros f. apply keeps_bind; [apply keeps_with_set|].
    intros _. destruct (params_get _ (key f)) as [val|]; [|apply keeps_ret].
    case_bool_decide; [apply keeps_ret|].
    apply keeps_forEach. intros v. apply keeps_add_decoded.
  - intros _. apply keeps_bind; [apply keeps_restore_checkboxes|]. intros _.
    destruct (params_get _ "country") as [c|]; [|apply keeps_ret].
    case_bool_decide; [apply keeps_ret|apply keeps_showCountryModal].
Qed.

Lemma keeps_clearAll : keeps_state_ok clearAll.
Proof.
  unfold clearAll. apply keeps_bind.
  - apply keeps_forEach. intros f. apply keeps_with_set.
  - intros _. apply keeps_bind; [by apply keeps_modify|]. intros _.
    apply keeps_bind; [apply keeps_serializeStateToHash|]. intros _.
    apply keeps_render.
Qed.

Lemma keeps_onFacetToggle el : keeps_state_ok (onFacetToggle el).
Proof.
  unfold onFacetToggle. apply keeps_bind; [apply keeps_with_set|]. intros _.
  apply keeps_bind; [apply keeps_serializeStateToHash|]. intros _.
  apply keeps_render.
Qed.

(** However [boot] ends, every facet has its [Set]. *)
Lemma boot_state_ok h data tr inputs fragment :
  state_ok (state (final (boot h data tr inputs fragment))).
Proof.
  unfold boot. apply (keeps_bind parseHashToState (λ _, render)).
  - apply keeps_parseHashToState.
  - intros _. apply keeps_render.
  - apply all_empty_ok, init_state_all_empty.
Qed.
(** ** The round trip on plain values *)

Lemma forall_chars_append P s t :
  forall_chars P (s +:+ t) = forall_chars P s && forall_chars P t.
Proof.
  induction s as [|c s IH]; [done|].
  rewrite append_cons. simpl. by rewrite IH, andb_assoc.
Qed.

Lemma forall_chars_join P pieces sep :
  forall_chars P sep = true →
  Forall (λ p, forall_chars P p = true) pieces →
  forall_chars P (join pieces sep) = true.
Proof.
  intros Hsep. induction 1 as [|p [|p' ps] Hp Hps IH]; [done|done|].
  change (join (p :: p' :: ps) sep) with (p +:+ sep +:+ join (p' :: ps) sep).
  by rewrite !forall_chars_append, Hp, Hsep, IH.
Qed.

Lemma forall_chars_impl (P Q : ascii → bool) s :
  (∀ c, P c = true → Q c = true) →
  forall_chars P s = true → forall_chars Q s = true.
Proof.
  intros HPQ. induction s as [|c s IH]; simpl; [done|].
  rewrite !andb_true_iff. intros [Hc Hs]. auto.
Qed.

Lemma contains_forall_chars s c :
  forall_chars (λ c', negb (Ascii.eqb c' c)) s = true → contains s c = false.
Proof.
  induction s as [|c' s IH]; simpl; [done|].
  rewrite andb_true_iff. intros [Hc Hs]. rewrite IH by done.
  by destruct (Ascii.eqb c' c).
Qed.

Lemma wire_escape c :
  forall_chars wire_char (if uriUnescaped c then String c "" else percent_escape c)
  = true.
Proof. each_char c; reflexivity. Qed.

Lemma wire_encodeURIComponent s :
  forall_chars wire_char (encodeURIComponent s) = true.
Proof.
  induction s as [|c s IH]; simpl; [done|].
  by rewrite forall_chars_append, wire_escape, IH.
Qed.

Lemma wire_not c c' :
  char_in ["?"; "+"; "#"]%char c' = true →
  wire_char c = true → negb (Ascii.eqb c c') = true.
Proof.
  intros Hc'. apply orb_true_iff in Hc' as [Hc'|Hc'];
    [|apply orb_true_iff in Hc' as [Hc'|Hc'];
      [|apply orb_true_iff in Hc' as [Hc'|Hc']; [|done]]];
    apply Ascii.eqb_eq in Hc' as ->; each_char c; by vm_compute.
Qed.

Lemma wire_fragment_state s :
  forall_chars wire_char s = true → fragment_state s = s.
Proof.
  induction s as [|c s IH]; simpl; [done|].
  rewrite andb_true_iff. intros [Hc Hs]. rewrite IH by done.
  revert Hc. each_char c; by vm_compute.
Qed.

(** *** Escapes are undone by [URLSearchParams] *)

Lemma form_decode_escape c rest :
  percent_decode (plus_to_space
    ((if uriUnescaped c then String c "" else percent_escape c) +:+ rest))
  = String c (percent_decode (plus_to_space rest)).
Proof. each_char c; reflexivity. Qed.

Lemma form_decode_encode s rest :
  percent_decode (plus_to_space (encodeURIComponent s +:+ rest))
  = s +:+ percent_decode (plus_to_space rest).
Proof.
  induction s as [|c s IH]; simpl; [done|].
  by rewrite append_assoc, form_decode_escape, IH, append_cons.
Qed.

Lemma form_decode_join sel :
  percent_decode (plus_to_space (join (map encodeURIComponent sel) ","))
  = join sel ",".
Proof.
  induction sel as [|v [|v' sel] IH].
  - done.
  - simpl. rewrite <- (append_nil_r (encodeURIComponent v)).
    by rewrite form_decode_encode, append_nil_r.
  - change (join (map encodeURIComponent (v :: v' :: sel)) ",")
      with (encodeURIComponent v
            +:+ String "," (join (map encodeURIComponent (v' :: sel)) ",")).
    rewrite form_decode_encode.
    change (percent_decode (plus_to_space (String "," ?s)))
      with (String ","%char (percent_decode (plus_to_space s))).
    by rewrite IH.
Qed.

(** *** Well-formed strings pass the UTF-8 decoder unchanged *)

Lemma utf8_decode_first b s :
  utf8_decode (String b s) "" 0 128 191
  = if char_code b <? 128 then String b (utf8_decode s "" 0 128 191)
    else if in_range 194 223 b then utf8_decode s (String b "") 1 128 191
    else if in_range 224 239 b then
      utf8_decode s (String b "") 2
        (if char_code b =? 224 then 160 else 128)
        (if char_code b =? 237 then 159 else 191)
    else if in_range 240 244 b then
      utf8_decode s (String b "") 3
        (if char_code b =? 240 then 144 else 128)
        (if char_code b =? 244 then 143 else 191)
    else replacement_character +:+ utf8_decode s "" 0 128 191.
Proof. done. Qed.

Lemma utf8_decode_last b s seen lo hi :
  in_range lo hi b = true →
  utf8_decode (String b s) seen 1 lo hi
  = seen +:+ String b (utf8_decode s "" 0 128 191).
Proof. intros H. simpl. by rewrite H. Qed.

Lemma utf8_decode_middle b s seen k lo hi :
  in_range lo hi b = true →
  utf8_decode (String b s) seen (S (S k)) lo hi
  = utf8_decode s (seen +:+ String b "") (S k) 128 191.
Proof. intros H. simpl. by rewrite H. Qed.

Lemma in_range_above lo hi b n :
  in_range lo hi b = true → n <= lo → (char_code b <? n) = false.
Proof.
  unfold in_range. rewrite andb_true_iff, !N.leb_le, N.ltb_ge. lia.
Qed.

Lemma in_range_apart lo hi lo' hi' b :
  in_range lo hi b = true → hi' < lo → in_range lo' hi' b = false.
Proof.
  unfold in_range. rewrite andb_true_iff, andb_false_iff, !N.leb_le, !N.leb_gt. lia.
Qed.

Lemma utf8_decode_utf8 s : utf8 s → utf8_decode_without_BOM s = s.
Proof.
  unfold utf8_decode_without_BOM.
  induction 1 as [|b s Hb _ IH|b0 b1 s Hseq _ IH|b0 b1 b2 s Hseq _ IH
                  |b0 b1 b2 b3 s Hseq _ IH].
  - done.
  - by rewrite utf8_decode_first, Hb, IH.
  - simpl in Hseq. apply andb_true_iff in Hseq as [H0 H1].
    rewrite utf8_decode_first, (in_range_above _ _ _ 128 H0), H0 by lia.
    by rewrite utf8_decode_last, IH.
  - simpl in Hseq. apply andb_true_iff in Hseq as [[H0 H1]%andb_true_iff H2].
    rewrite utf8_decode_first, (in_range_above _ _ _ 128 H0) by lia.
    rewrite (in_range_apart _ _ 194 223 _ H0), H0 by lia.
    by rewrite utf8_decode_middle, utf8_decode_last, IH.
  - simpl in Hseq.
    apply andb_true_iff in Hseq as [[[H0 H1]%andb_true_iff H2]%andb_true_iff H3].
    rewrite utf8_decode_first, (in_range_above _ _ _ 128 H0) by lia.
    rewrite (in_range_apart _ _ 194 223 _ H0) by lia.
    rewrite (in_range_apart _ _ 224 239 _ H0), H0 by lia.
    by rewrite !utf8_decode_middle, utf8_decode_last, IH.
Qed.

Lemma utf8_append s t : utf8 s → utf8 t → utf8 (s +:+ t).
Proof.
  intros Hs Ht. induction Hs; rewrite ?append_cons; [done|..];
    by constructor.
Qed.

Lemma utf8_join sel : Forall utf8 sel → utf8 (join sel ",").
Proof.
  induction 1 as [|v [|v' sel] Hv Hsel IH]; [constructor|done|].
  change (join (v :: v' :: sel) ",") with (v +:+ String "," (join (v' :: sel) ",")).
  apply utf8_append; [done|]. by apply utf8_1.
Qed.

Lemma form_decode_values sel :
  Forall utf8 sel →
  form_decode (join (map encodeURIComponent sel) ",") = join sel ",".
Proof.
  intros H. unfold form_decode.
  by rewrite form_decode_join, utf8_decode_utf8 by by apply utf8_join.
Qed.

Lemma form_decode_value v :
  utf8 v → form_decode (encodeURIComponent v) = v.
Proof.
  intros H. unfold form_decode.
  rewrite <- (append_nil_r (encodeURIComponent v)), form_decode_encode.
  rewrite append_nil_r. by apply utf8_decode_utf8.
Qed.

(** *** Plain values come back as they were *)

Lemma escaped_escape c :
  forall_chars escaped_char (if uriUnescaped c then String c "" else percent_escape c)
  = true.
Proof. each_char c; reflexivity. Qed.

Lemma escaped_encodeURIComponent s :
  forall_chars escaped_char (encodeURIComponent s) = true.
Proof.
  induction s as [|c s IH]; simpl; [done|].
  by rewrite forall_chars_append, escaped_escape, IH.
Qed.

Lemma escaped_not c c' :
  char_in ["="; "&"; ","]%char c' = true →
  escaped_char c = true → negb (Ascii.eqb c c') = true.
Proof.
  intros Hc'. apply orb_true_iff in Hc' as [Hc'|Hc'];
    [|apply orb_true_iff in Hc' as [Hc'|Hc'];
      [|apply orb_true_iff in Hc' as [Hc'|Hc']; [|done]]];
    apply Ascii.eqb_eq in Hc' as ->; each_char c; by vm_compute.
Qed.

Lemma encodeURIComponent_without s c :
  char_in ["="; "&"; ","]%char c = true →
  contains (encodeURIComponent s) c = false.
Proof.
  intros Hc. apply contains_forall_chars.
  apply (forall_chars_impl escaped_char); [|apply escaped_encodeURIComponent].
  intros c'. by apply escaped_not.
Qed.

Lemma contains_append s t c :
  contains (s +:+ t) c = contains s c || contains t c.
Proof.
  induction s as [|c' s IH]; [done|].
  rewrite append_cons. simpl. by rewrite IH, orb_assoc.
Qed.


Lemma name_and_value_append name val :
  contains name "=" = false →
  name_and_value (name +:+ String "=" val) = (name, val).
Proof.
  induction name as [|c name IH]; [done|].
  rewrite append_cons. simpl.
  destruct (Ascii.eqb c "="); simpl; [done|]. by intros ->%IH.
Qed.

Lemma uri_decode_without_percent v :
  contains v "%" = false → decodeURIComponent v = Normal v.
Proof.
  unfold decodeURIComponent. induction v as [|c v IH]; simpl; [done|].
  destruct (Ascii.eqb c "%"); simpl; [done|]. by intros ->%IH.
Qed.

Lemma decode_all_plain sel :
  Forall (λ v, contains v "%" = false) sel → decode_all sel = Normal sel.
Proof.
  induction 1 as [|v sel Hv _ IH]; simpl; [done|].
  by rewrite uri_decode_without_percent, IH.
Qed.

Lemma split_join sel :
  sel ≠ [] →
  Forall (λ v, contains v "," = false) sel →
  split (join sel ",") "," = sel.
Proof.
  intros Hne H. induction H as [|v [|v' sel] Hv Hsel IH]; [done| |].
  - by apply split_without.
  - change (join (v :: v' :: sel) ",") with (v +:+ String "," (join (v' :: sel) ",")).
    rewrite split_append, split_without, IH by done. done.
Qed.

Lemma join_nonempty sel sep :
  sel ≠ [] → Forall (λ v, v ≠ "") sel → join sel sep ≠ "".
Proof.
  intros Hne H. destruct H as [|v [|v' sel] Hv Hsel]; [done|done|].
  destruct v as [|c v]; [done|].
  change (join (String c v :: v' :: sel) sep)
    with (String c (v +:+ sep +:+ join (v' :: sel) sep)).
  done.
Qed.

Lemma foldl_set_add_NoDup acc sel :
  NoDup (acc ++ sel) → foldl set_add acc sel = acc ++ sel.
Proof.
  revert acc. induction sel as [|v sel IH]; intros acc Hnd; simpl.
  - by rewrite app_nil_r.
  - unfold set_add at 2. unfold set_has.
    rewrite bool_decide_eq_false_2.
    + rewrite IH; rewrite <- app_assoc; done.
    + apply NoDup_app in Hnd as (_ & Hdisj & _).
      intros Hin. apply (Hdisj v Hin). left.
Qed.

Lemma set_of_NoDup sel : NoDup sel → set_of sel = sel.
Proof. intros H. by apply (foldl_set_add_NoDup []). Qed.

(** *** What [serializeStateToHash] writes and [URLSearchParams] reads *)

Lemma param_char_wire c : param_char c = true → wire_char c = true.
Proof. each_char c; by vm_compute. Qed.

Lemma param_char_not_amp c : param_char c = true → negb (Ascii.eqb c "&") = true.
Proof. each_char c; by vm_compute. Qed.

Lemma escaped_param_char c : escaped_char c = true → param_char c = true.
Proof. unfold param_char. by intros ->. Qed.

Lemma param_char_encodeURIComponent s :
  forall_chars param_char (encodeURIComponent s) = true.
Proof.
  apply (forall_chars_impl escaped_char);
    [apply escaped_param_char|apply escaped_encodeURIComponent].
Qed.

Lemma facet_keys_decode :
  Forall (λ f, form_decode (encodeURIComponent (key f)) = key f) FACETS.
Proof. repeat constructor. Qed.

Lemma facet_keys_NoDup : NoDup (map key FACETS).
Proof. apply (bool_decide_unpack _). vm_compute. exact I. Qed.

Lemma facet_keys_not_country : "country" ∉ map key FACETS.
Proof. apply (bool_decide_unpack _). vm_compute. exact I. Qed.

Lemma append_nonempty s t : t ≠ "" → s +:+ t ≠ "".
Proof. destruct s; [done|]. by rewrite append_cons. Qed.

Lemma plain_values_utf8 sel : Forall plain_value sel → Forall utf8 sel.
Proof. intros H. eapply Forall_impl; [exact H|]. by intros v (? & _). Qed.

Section Written.
Context (st : State) (Hplain : plain_state st).

Lemma facet_param_chars f p :
  facet_param st f = Some p → forall_chars param_char p = true.
Proof.
  unfold facet_param. destruct (st !! key f) as [sel|]; [|done].
  case_bool_decide; [|done]. intros [= <-].
  rewrite !forall_chars_append, param_char_encodeURIComponent. simpl.
  apply forall_chars_join; [done|].
  apply Forall_fmap, Forall_true. intros v. apply param_char_encodeURIComponent.
Qed.

Lemma facet_param_parsed f :
  f ∈ FACETS →
  facet_param st f ≫= parse_sequence = facet_pair st f.
Proof.
  intros Hf. unfold facet_param, facet_pair.
  destruct (st !! key f) as [sel|] eqn:Hsel; [|done].
  case_bool_decide; [|done]. simpl.
  destruct (Hplain f sel Hf Hsel) as [_ Hvals].
  unfold parse_sequence.
  rewrite bool_decide_eq_false_2 by (by apply append_nonempty).
  change ("=" +:+ ?s) with (String "="%char s).
  rewrite name_and_value_append by (by apply encodeURIComponent_without).
  rewrite form_decode_values by (by apply plain_values_utf8).
  by rewrite (proj1 (Forall_forall _ _) facet_keys_decode f Hf).
Qed.

Lemma params_parsed facets rest_params rest_pairs :
  (∀ f, f ∈ facets → f ∈ FACETS) →
  omap parse_sequence (flat_map (λ seg, split seg "&") rest_params) = rest_pairs →
  omap parse_sequence
    (flat_map (λ seg, split seg "&") (omap (facet_param st) facets ++ rest_params))
  = omap (facet_pair st) facets ++ rest_pairs.
Proof.
  intros Hsub Hrest. induction facets as [|f facets IH]; [done|].
  assert (IH' := IH (λ g Hg, Hsub g (list_elem_of_further _ _ _ Hg))). clear IH.
  assert (Hf := facet_param_parsed f (Hsub f (list_elem_of_here _ _))).
  simpl in *. destruct (facet_param st f) as [p|] eqn:Hp; simpl in *.
  - rewrite split_without.
    + simpl. rewrite Hf. destruct (facet_pair st f); simpl; [f_equal|]; exact IH'.
    + apply contains_forall_chars.
      apply (forall_chars_impl param_char); [apply param_char_not_amp|].
      by apply (facet_param_chars f).
  - rewrite <- Hf. exact IH'.
Qed.

Lemma params_wire facets :
  Forall (λ p, forall_chars wire_char p = true) (omap (facet_param st) facets).
Proof.
  induction facets as [|f facets IH]; simpl; [constructor|].
  destruct (facet_param st f) as [p|] eqn:Hp; [|done].
  constructor; [|done].
  apply (forall_chars_impl param_char); [apply param_char_wire|].
  by apply (facet_param_chars f).
Qed.

Lemma params_get_other facets rest k :
  k ∉ map key facets →
  params_get (omap (facet_pair st) facets ++ rest) k = params_get rest k.
Proof.
  induction facets as [|g facets IH]; intros Hk; simpl; [done|].
  assert (key g ≠ k) by (intros Heq; apply Hk; rewrite <- Heq; left).
  assert (k ∉ map key facets) by (intros ?; apply Hk; by right).
  unfold facet_pair at 1. destruct (st !! key g) as [sel|]; [|by apply IH].
  case_bool_decide; [|by apply IH]. simpl.
  rewrite bool_decide_eq_false_2 by done. by apply IH.
Qed.

(** The first pair with a facet's key is the facet's own. *)
Lemma params_get_facet_pair facets rest f :
  NoDup (map key facets) → f ∈ facets →
  params_get (omap (facet_pair st) facets ++ rest) (key f)
  = match facet_pair st f with
    | Some kv => Some kv.2
    | None => params_get rest (key f)
    end.
Proof.
  induction facets as [|g facets IH]; intros Hnd Hf; [by apply elem_of_nil in Hf|].
  apply NoDup_cons in Hnd as [Hg Hnd].
  apply elem_of_cons in Hf as [->|Hf].
  - simpl. destruct (facet_pair st g) as [[k v]|] eqn:Hpair; simpl.
    + assert (k = key g) as ->.
      { unfold facet_pair in Hpair. destruct (st !! key g); [|done].
        case_bool_decide; [|done]. by injection Hpair as <- _. }
      by rewrite bool_decide_eq_true_2.
    + by apply params_get_other.
  - assert (key g ≠ key f).
    { intros Heq. apply Hg. rewrite Heq. by apply list_elem_of_fmap_2. }
    simpl. unfold facet_pair at 1. destruct (st !! key g) as [sel|]; [|by apply IH].
    case_bool_decide; [|by apply IH]. simpl.
    rewrite bool_decide_eq_false_2 by done. by apply IH.
Qed.
End Written.

Lemma country_param_chars countryCode :
  Forall (λ p, forall_chars wire_char p = true) (country_param countryCode).
Proof.
  destruct countryCode as [c|]; simpl; [|constructor].
  case_bool_decide; constructor; [|constructor].
  by rewrite forall_chars_append, wire_encodeURIComponent.
Qed.

Lemma country_param_parsed countryCode :
  (∀ c, countryCode = Some c → utf8 c) →
  omap parse_sequence (flat_map (λ seg, split seg "&") (country_param countryCode))
  = country_pair countryCode.
Proof.
  intros Hc. unfold country_pair, focused.
  destruct countryCode as [c|]; simpl; [|done].
  case_bool_decide; simpl; [done|].
  rewrite split_without.
  - simpl. unfold parse_sequence. simpl.
    rewrite append_nil_l, form_decode_value by auto. done.
  - by rewrite contains_append, encodeURIComponent_without.
Qed.

Lemma startsWith_without s c :
  contains s c = false → startsWith s (String c "") = false.
Proof.
  destruct s as [|c' s]; simpl; [done|].
  destruct (Ascii.eqb c' c); [done|]. done.
Qed.

(** What the setter of [window.location.hash] keeps of a written body. *)
Lemma location_hash_after_set_wire body :
  forall_chars wire_char body = true →
  location_hash_after_set ("#!" +:+ body) = "#!" +:+ body.
Proof.
  intros Hbody. unfold location_hash_after_set.
  change (match "#!" +:+ body with
          | "" => "#!" +:+ body
          | String c v' => if Ascii.eqb c "#" then v' else "#!" +:+ body
          end) with (String "!" body).
  rewrite (wire_fragment_state (String "!" body)) by done. done.
Qed.

(** *** The written fragment, read back *)

Lemma written_fragment_wire st countryCode :
  forall_chars wire_char
    (join (omap (facet_param st) FACETS ++ country_param countryCode) "&") = true.
Proof.
  apply forall_chars_join; [done|]. apply Forall_app. split.
  - apply params_wire.
  - apply country_param_chars.
Qed.

Lemma serializeStateToHash_written countryCode w :
  serializeStateToHash countryCode w
  = Ret tt (set_location_hash (written_fragment (state w) countryCode) w).
Proof.
  unfold serializeStateToHash, bind, gets, modify, written_fragment.
  by rewrite location_hash_after_set_wire by apply written_fragment_wire.
Qed.

Lemma written_fragment_params st countryCode :
  plain_state st → (∀ c, countryCode = Some c → utf8 c) →
  hash_params (written_fragment st countryCode)
  = omap (facet_pair st) FACETS ++ country_pair countryCode.
Proof.
  intros Hplain Hc. unfold written_fragment. rewrite hash_params_sentinel.
  - rewrite parse_urlencoded_join. apply params_parsed; [done|done|].
    by apply country_param_parsed.
  - apply startsWith_without, contains_forall_chars.
    apply (forall_chars_impl wire_char); [|apply written_fragment_wire].
    intros c. by apply wire_not.
Qed.

Lemma written_listed st countryCode f sel :
  plain_state st → f ∈ FACETS → st !! key f = Some sel →
  listed_values (omap (facet_pair st) FACETS ++ country_pair countryCode) (key f)
  = Normal sel.
Proof.
  intros Hplain Hf Hsel. unfold listed_values.
  rewrite params_get_facet_pair by (done || apply facet_keys_NoDup).
  unfold facet_pair. rewrite Hsel.
  destruct (Hplain f sel Hf Hsel) as [_ Hvals].
  case_bool_decide as Hlen; simpl.
  - assert (sel ≠ []) by (intros ->; simpl in Hlen; lia).
    rewrite bool_decide_eq_false_2.
    + rewrite split_join; [|done|].
      * apply decode_all_plain. eapply Forall_impl; [exact Hvals|].
        by intros v (_ & _ & _ & ?).
      * eapply Forall_impl; [exact Hvals|]. by intros v (_ & _ & ? & _).
    + apply join_nonempty; [done|].
      eapply Forall_impl; [exact Hvals|]. by intros v (_ & ? & _).
  - destruct sel; [|simpl in Hlen; lia].
    unfold country_pair. destruct (focused countryCode) as [c|]; simpl; [|done].
    rewrite bool_decide_eq_false_2; [done|].
    intros Heq. apply facet_keys_not_country. rewrite Heq.
    by apply list_elem_of_fmap_2.
Qed.

Lemma written_country st countryCode :
  params_get (omap (facet_pair st) FACETS ++ country_pair countryCode) "country"
  = focused countryCode.
Proof.
  rewrite params_get_other by apply facet_keys_not_country.
  unfold country_pair. by destruct (focused countryCode) as [c|].
Qed.

(** On plain values the fragment restores the state it was written from:
    every facet gets its selection back, in the same order, and the country
    code that was written is the one read. *)
Theorem round_trip_of_plain_values (w : App) (countryCode : option string) :
  state_ok (state w) →
  plain_state (state w) →
  (∀ c, countryCode = Some c → utf8 c) →
  let written := final (serializeStateToHash countryCode w) in
  outcome (serializeStateToHash countryCode w) = None
  ∧ (∀ f, f ∈ FACETS →
       state (final (parseHashToState written)) !! key f = state w !! key f)
  ∧ params_get (hash_params (location_hash written)) "country"
    = focused countryCode.
Proof.
  intros Hok Hplain Hcountry written. split; [done|].
  set (pairs := omap (facet_pair (state w)) FACETS ++ country_pair countryCode).
  assert (Hwritten : written
            = set_location_hash (written_fragment (state w) countryCode) w)
    by (unfold written; by rewrite serializeStateToHash_written).
  assert (Hparams : hash_params (location_hash written) = pairs)
    by (rewrite Hwritten; by apply written_fragment_params).
  split.
  - intros f Hf. destruct (state_ok_lookup _ f Hok Hf) as [sel Hsel].
    rewrite parseHashToState_unfold.
    replace (startsWith (location_hash written) "#!") with true
      by (by rewrite Hwritten).
    rewrite Hparams, restore_from_state.
    + rewrite (restore_from_lookup pairs _ f sel Hf)
        by (by apply written_listed).
      rewrite Hsel. f_equal. apply set_of_NoDup. by destruct (Hplain f sel Hf Hsel).
    + by rewrite Hwritten.
    + intros g Hg. destruct (state_ok_lookup _ g Hok Hg) as [sel' Hsel'].
      exists sel'. by apply written_listed.
  - rewrite Hparams. apply written_country.
Qed.

Lemma round_trip_of_plain_values_witness :
  let w := page scenario (example_state "cameras" ["Gen 4"; "é"]) "" in
  let written := final (serializeStateToHash (Some "jp") w) in
  (state_ok (state w) ∧ plain_state (state w)
   ∧ ∀ c, Some "jp" = Some c → utf8 c)
  ∧ outcome (serializeStateToHash (Some "jp") w) = None
  ∧ (∀ f, f ∈ FACETS →
       state (final (parseHashToState written)) !! key f = state w !! key f)
  ∧ params_get (hash_params (location_hash written)) "country"
    = focused (Some "jp").
Proof.
  intros w written.
  assert (H1 : state_ok (state w)) by (apply (bool_decide_unpack _); vm_compute; exact I).
  assert (H2 : plain_state (state w)).
  { intros f sel Hf Hsel.
    repeat (apply elem_of_cons in Hf as [->|Hf]); try (by apply elem_of_nil in Hf);
      vm_compute in Hsel; injection Hsel as <-;
      (split; [apply (bool_decide_unpack _); vm_compute; exact I|]);
      repeat (apply Forall_cons; split;
              [split; [utf8_string|split; [done|split; reflexivity]]|]);
      constructor. }
  assert (H3 : ∀ c, Some "jp" = Some c → utf8 c).
  { intros c [= <-]. utf8_string. }
  split; [done|].
  exact (round_trip_of_plain_values w (Some "jp") H1 H2 H3).
Defined.

Example round_trip_of_plain_values_example :
  let w := page [("DE", DE)] (example_state "cameras" ["Gen 4"; "é"]) "" in
  let written := final (serializeStateToHash (Some "de") w) in
  location_hash written = "#!cameras=Gen%204,%C3%A9&country=de"
  ∧ outcome (parseHashToState written) = None
  ∧ state (final (parseHashToState written)) !! "cameras" = Some ["Gen 4"; "é"]
  ∧ modal (final (parseHashToState written))
    = Some {| modal_code := "DE"; modal_country := DE |}.
Proof. repeat split; reflexivity. Qed.

(** ** The round trip through the fragment *)

(** C1 at a value with a comma.  The selection [cameras = {"a,b"}] is what
    start-up restores from [#!cameras=a%252Cb].  [serializeStateToHash]
    writes it as [#!cameras=a%2Cb]; [URLSearchParams] decodes the escape
    before [parseHashToState] cuts the value at the commas, so the selection
    read back is [{"a", "b"}].  A value with a percent sign fares worse: the
    second decoding, by [decodeURIComponent], throws. *)
Theorem round_trip_breaks_on_comma_and_percent (h : Host) (tr : TrMap) :
  let w := page scenario (example_state "cameras" ["a,b"]) "" in
  let written := final (serializeStateToHash None w) in
  let read := parseHashToState written in
  let w' := page scenario (example_state "cameras" ["100%"]) "" in
  let written' := final (serializeStateToHash None w') in
  let read' := parseHashToState written' in
  (outcome (boot h scenario tr [] "#!cameras=a%252Cb") = None
   ∧ state (final (boot h scenario tr [] "#!cameras=a%252Cb")) !! "cameras"
     = Some ["a,b"])
  ∧ (location_hash written = "#!cameras=a%2Cb"
     ∧ outcome read = None
     ∧ state (final read) !! "cameras" = Some ["a"; "b"])
  ∧ (location_hash written' = "#!cameras=100%25"
     ∧ outcome read' = Some URIError
     ∧ state (final read') !! "cameras" = Some []).
Proof. repeat split; reflexivity. Qed.
(** ** Fragments with clean pieces *)


































(** ** An unknown key is ignored *)



Example unknown_segment_example :
  let w := page scenario (example_state "years" ["2010"]) "#!driving=left&utm=1" in
  let read := parseHashToState w in
  let w' := page [("DE", DE)] (example_state "years" ["2010"])
                 "#!driving=left,right&utm=1&country=de" in
  let read' := parseHashToState w' in
  (outcome read = None
   ∧ listed_for "driving=left&utm=1" "driving" = ["left"]
   ∧ state (final read) !! "driving" = Some ["left"]
   ∧ state (final read) !! "years" = Some []
   ∧ modal (final read) = None)
  ∧ (outcome read' = None
     ∧ listed_for "driving=left,right&utm=1&country=de" "driving" = ["left"; "right"]
     ∧ state (final read') !! "driving" = Some ["left"; "right"]
     ∧ state (final read') !! "cameras" = Some []
     ∧ modal (final read') = Some {| modal_code := "DE"; modal_country := DE |}).
Proof. intros w read w' read'. repeat split; reflexivity. Qed.

(** ** Decoding replaces the selections *)



Example decoding_replaces_selections_example :
  let body := "driving=left,right&cameras=Gen%204&utm=%" in
  let w := page scenario (example_state "years" ["2010"]) ("#!" +:+ body) in
  let read := parseHashToState w in
  listed_for body "driving" = ["left"; "right"]
  ∧ listed_for body "cameras" = ["Gen 4"]
  ∧ listed_for body "years" = []
  ∧ state (final read) !! "driving" = Some ["left"; "right"]
  ∧ state (final read) !! "cameras" = Some ["Gen 4"]
  ∧ state (final read) !! "years" = Some [].
Proof. intros body w read. repeat split; reflexivity. Qed.

(** * Further properties of the match engine *)

(** ** The match list as a filter *)

(** X1.  With every facet's [Set] in place, the loop of [render] returns the
    entries of the dataset that pass [matchesAllFilters], each with its code,
    in the order of the dataset. *)
Theorem matches_are_the_passing_entries (C : Metas) (st : State) :
  state_ok st →
  render_matches C st
  = Normal (map (λ entry, match_record entry.1 entry.2)
                (List.filter (λ entry, passes st entry.2) C)).
Proof.
  intros Hok. induction C as [|[code c] C IH]; simpl; [done|].
  rewrite IH. unfold passes.
  destruct (matchesAllFilters_total st c Hok) as [b ->]. by destruct b.
Qed.

Lemma matches_are_the_passing_entries_witness :
  let st := example_state "driving" ["left"] in
  state_ok st
  ∧ render_matches scenario st
    = Normal (map (λ entry, match_record entry.1 entry.2)
                  (List.filter (λ entry, passes st entry.2) scenario)).
Proof.
  intros st.
  assert (H1 : state_ok st) by (apply (bool_decide_unpack _); vm_compute; exact I).
  split; [done|].
  exact (matches_are_the_passing_entries scenario st H1).
Defined.

(** ** The order of the facets *)

(** X2.  The loop of [matchesAllFilters] is a plain conjunction: run over the
    facets in any other order it returns the same answer, as long as each of
    them has its [Set]. *)
Theorem facet_order_is_irrelevant
  (st : State) (country : Country) (facets facets' : list Facet) :
  facets ≡ₚ facets' →
  (∀ f, f ∈ facets → is_Some (st !! key f)) →
  matches_from facets' st country = matches_from facets st country.
Proof.
  intros Hperm Hok.
  assert (Hiff : ∀ f, f ∈ facets ↔ f ∈ facets') by (intros f; by rewrite Hperm).
  assert (Hok' : ∀ f, f ∈ facets' → is_Some (st !! key f)).
  { intros f Hf. by apply Hok, Hiff. }
  rewrite !matches_from_forallb by done. f_equal.
  apply eq_true_iff_eq. rewrite !forallb_forall.
  split; intros H f Hf; apply H, list_elem_of_In, Hiff; by apply list_elem_of_In.
Qed.

Lemma facet_order_is_irrelevant_witness :
  let st := example_state "driving" ["left"] in
  (FACETS ≡ₚ reverse FACETS
   ∧ ∀ f, f ∈ FACETS → is_Some (st !! key f))
  ∧ matches_from (reverse FACETS) st JP = matches_from FACETS st JP.
Proof.
  intros st.
  assert (H1 : FACETS ≡ₚ reverse FACETS) by (symmetry; apply reverse_Permutation).
  assert (H2 : ∀ f, f ∈ FACETS → is_Some (st !! key f)).
  { intros f. apply state_ok_lookup. apply (bool_decide_unpack _). vm_compute. exact I. }
  split; [done|].
  exact (facet_order_is_irrelevant st JP FACETS (reverse FACETS) H1 H2).
Defined.

(** ** Empty values *)

(** X3.  For a facet with a non-empty selection, a country whose value is the
    empty string or the empty array is rejected like one with no value: an
    empty array has none of the selected values, and an empty string is
    falsy. *)
Theorem empty_value_excludes
  (st : State) (country : Country) (f : Facet) (sel : JsSet) :
  state_ok st → f ∈ FACETS →
  st !! key f = Some sel → sel ≠ [] →
  country !! key f = Some (Scalar "") ∨ country !! key f = Some (Sequence []) →
  matchesAllFilters st country = Normal false.
Proof.
  intros Hok Hf Hsel Hne Hval.
  apply (matchesAllFilters_false_of st country f sel); try done.
  rewrite facet_passes_nonempty by done.
  destruct Hval as [-> | ->]; [done|]. by destruct sel.
Qed.

Lemma empty_value_excludes_witness :
  let st := example_state "cameras" ["blur"] in
  let country : Country := {[ "cameras" := Sequence [] ]} in
  let f := {| key := "cameras"; type := "array" |} in
  (state_ok st ∧ f ∈ FACETS ∧ st !! key f = Some ["blur"] ∧ ["blur"] ≠ []
   ∧ (country !! key f = Some (Scalar "")
      ∨ country !! key f = Some (Sequence [])))
  ∧ matchesAllFilters st country = Normal false.
Proof.
  intros st country f.
  assert (H1 : state_ok st) by (apply (bool_decide_unpack _); vm_compute; exact I).
  assert (H2 : f ∈ FACETS) by left.
  assert (H3 : st !! key f = Some ["blur"]) by reflexivity.
  assert (H4 : ["blur"] ≠ ([] : JsSet)) by discriminate.
  assert (H5 : country !! key f = Some (Scalar "")
               ∨ country !! key f = Some (Sequence [])) by (right; reflexivity).
  split; [done|].
  exact (empty_value_excludes st country f _ H1 H2 H3 H4 H5).
Defined.
(** * Further properties of the page *)

(** ** What [serializeStateToHash] writes *)

(** X4.  [serializeStateToHash] always returns; it changes nothing but
    [window.location.hash], and what the browser then reads back is the text
    written, unescaped and untrimmed: the sentinel, then nothing but
    characters [encodeURIComponent] leaves or writes and the separators
    [=], [,] and [&]. *)
Theorem serialized_fragment_is_kept (w : App) (countryCode : option string) :
  ∃ body,
    serializeStateToHash countryCode w
    = Ret tt (set_location_hash ("#!" +:+ body) w)
    ∧ body = join (omap (facet_param (state w)) FACETS
                   ++ country_param countryCode) "&"
    ∧ forall_chars wire_char body = true
    ∧ startsWith ("#!" +:+ body) "#!" = true.
Proof.
  eexists. split; [apply serializeStateToHash_written|].
  split; [done|]. split; [apply written_fragment_wire|done].
Qed.

(** ** Parts of the page a handler leaves alone *)

Section Preserved.
Context {B : Type} (part : App → B).
Context (Hstate : ∀ st w, part (set_state st w) = part w).

Lemma preserves_ret {A} (a : A) : preserves part (ret a).
Proof. by intros w. Qed.

Lemma preserves_bind {A C} (m : M A) (k : A → M C) :
  preserves part m → (∀ a, preserves part (k a)) → preserves part (bind m k).
Proof.
  intros Hm Hk w. unfold bind. specialize (Hm w).
  destruct (m w) as [a w'|e w']; simpl in *; [|done].
  by rewrite Hk.
Qed.

Lemma preserves_forEach {A} (xs : list A) (body : A → M unit) :
  (∀ x, preserves part (body x)) → preserves part (forEach xs body).
Proof.
  intros H. induction xs as [|x xs IH]; simpl.
  - apply preserves_ret.
  - apply preserves_bind; [apply H|done].
Qed.

Lemma preserves_with_set k op : preserves part (with_set k op).
Proof.
  intros w. unfold with_set. destruct (state w !! k); simpl; [apply Hstate|done].
Qed.

Lemma preserves_add_decoded k v : preserves part (add_decoded k v).
Proof.
  intros w. unfold add_decoded. destruct (state w !! k); [|done].
  destruct (decodeURIComponent v); simpl; [apply Hstate|done].
Qed.

(** The loop of [parseHashToState] writes [state] only. *)
Lemma preserves_restore_loop params :
  preserves part
    (forEach FACETS (λ facet,
       with_set (key facet) set_clear ;;
       match params_get params (key facet) with
       | Some val =>
           if bool_decide (val = "") then ret tt
           else forEach (split val ",") (add_decoded (key facet))
       | None => ret tt
       end)).
Proof.
  apply preserves_forEach. intros f. apply preserves_bind.
  - apply preserves_with_set.
  - intros _. destruct (params_get params (key f)) as [val|];
      [|apply preserves_ret].
    case_bool_decide; [apply preserves_ret|].
    apply preserves_forEach. intros v. apply preserves_add_decoded.
Qed.

Context (Hboxes : ∀ bs w, part (set_checkboxes bs w) = part w).
Context (Hmodal : ∀ m w, part (set_modal m w) = part w).
Context (Hhandlers : ∀ n w, part (set_hidden_handlers n w) = part w).

Lemma preserves_showCountryModal code :
  preserves part (showCountryModal code false).
Proof.
  intros w. rewrite showCountryModal_run.
  destruct (found (host w) (metas w) code) as [country|]; [|done].
  destruct (forallb _ modal_keys); [|done].
  unfold modal_opened. simpl. by rewrite Hhandlers, Hmodal.
Qed.

Lemma preserves_restore_checkboxes : preserves part restore_checkboxes.
Proof.
  intros w. unfold restore_checkboxes.
  destruct (restore_inputs (state w) (checkboxes w)) as [inputs [e|]];
    simpl; apply Hboxes.
Qed.

Lemma preserves_parseHashToState : preserves part parseHashToState.
Proof.
  unfold parseHashToState. apply preserves_bind; [done|]. intros h.
  destruct (negb (startsWith h "#!")); [apply preserves_ret|].
  apply preserves_bind; [apply preserves_restore_loop|]. intros _.
  apply preserves_bind; [apply preserves_restore_checkboxes|].
  intros _. destruct (params_get _ "country") as [c|]; [|apply preserves_ret].
  case_bool_decide; [apply preserves_ret|apply preserves_showCountryModal].
Qed.
End Preserved.

(** X5.  [parseHashToState] reads the fragment and never writes it: however
    it ends, [window.location.hash] is what it was, and so are the dataset and
    the matches last rendered (it does not render). *)
Theorem parse_reads_only (w : App) :
  location_hash (final (parseHashToState w)) = location_hash w
  ∧ metas (final (parseHashToState w)) = metas w
  ∧ matches (final (parseHashToState w)) = matches w.
Proof.
  split; [|split]; by apply preserves_parseHashToState.
Qed.
(** ** The checkboxes after [parseHashToState] *)

Lemma app_ext (w1 w2 : App) :
  metas w1 = metas w2 → state w1 = state w2 →
  location_hash w1 = location_hash w2 → checkboxes w1 = checkboxes w2 →
  modal w1 = modal w2 → hidden_handlers w1 = hidden_handlers w2 →
  matches w1 = matches w2 → trMap w1 = trMap w2 → host w1 = host w2 →
  w1 = w2.
Proof. destruct w1, w2. simpl. by intros -> -> -> -> -> -> -> -> ->. Qed.

Lemma restore_loop_final params w :
  let loop := forEach FACETS (λ facet,
       with_set (key facet) set_clear ;;
       match params_get params (key facet) with
       | Some val =>
           if bool_decide (val = "") then ret tt
           else forEach (split val ",") (add_decoded (key facet))
       | None => ret tt
       end) in
  final (loop w) = set_state (state (final (loop w))) w.
Proof.
  intros loop.
  apply app_ext; simpl;
    [apply (preserves_restore_loop metas (λ _ _, eq_refl))
    |done
    |apply (preserves_restore_loop location_hash (λ _ _, eq_refl))
    |apply (preserves_restore_loop checkboxes (λ _ _, eq_refl))
    |apply (preserves_restore_loop modal (λ _ _, eq_refl))
    |apply (preserves_restore_loop hidden_handlers (λ _ _, eq_refl))
    |apply (preserves_restore_loop matches (λ _ _, eq_refl))
    |apply (preserves_restore_loop trMap (λ _ _, eq_refl))
    |apply (preserves_restore_loop host (λ _ _, eq_refl))].
Qed.

Lemma uri_decode_tokens_error n ts e :
  (length ts ≤ n)%nat → uri_decode_tokens ts = Throw e → e = URIError.
Proof.
  revert ts e. induction n as [|n IH]; intros ts e Hn.
  - destruct ts; [done|simpl in Hn; lia].
  - destruct ts as [|[c|b0|] ts]; simpl; [done| | |by intros [= <-]].
    + destruct (uri_decode_tokens ts) eqn:Hts; [done|]. intros [= <-].
      apply (IH ts); [simpl in Hn; lia|done].
    + simpl in Hn.
      repeat case_match; try (by intros [= <-]); try done; subst; simpl in Hn;
        intros [= <-]; (eapply IH; [|eassumption]); lia.
Qed.

Lemma decodeURIComponent_error v e : decodeURIComponent v = Throw e → e = URIError.
Proof. apply (uri_decode_tokens_error (length (uri_tokens v))). lia. Qed.

Lemma decode_all_error vs e : decode_all vs = Throw e → e = URIError.
Proof.
  induction vs as [|v vs IH]; simpl; [done|].
  destruct (decodeURIComponent v) eqn:Hv.
  - destruct (decode_all vs); [done|]. intros [= <-]. by apply IH.
  - intros [= <-]. by apply decodeURIComponent_error in Hv.
Qed.

Lemma forEach_add_decoded_fails k vals e sel w :
  state w !! k = Some sel →
  decode_all vals = Throw e →
  outcome (forEach vals (add_decoded k) w) = Some e.
Proof.
  revert sel w. induction vals as [|v vals IH]; intros sel w Hsel; simpl; [done|].
  unfold bind, add_decoded at 1. rewrite Hsel.
  destruct (decodeURIComponent v) as [d|e']; [|by intros [= <-]].
  destruct (decode_all vals) as [ds|e'] eqn:Hds; [done|]. intros [= <-].
  apply (IH (set_add sel d)); [|done]. simpl. by rewrite lookup_insert_eq.
Qed.

Lemma restore_loop_fails params facets w :
  (∀ f, f ∈ facets → is_Some (state w !! key f)) →
  forallb (λ f, completes (listed_values params (key f))) facets = false →
  outcome (forEach facets (λ facet,
    with_set (key facet) set_clear ;;
    match params_get params (key facet) with
    | Some val =>
        if bool_decide (val = "") then ret tt
        else forEach (split val ",") (add_decoded (key facet))
    | None => ret tt
    end) w) = Some URIError.
Proof.
  revert w. induction facets as [|f facets IH]; intros w Hok; simpl; [done|].
  destruct (Hok f) as [sel Hsel]; [left|].
  destruct (listed_values params (key f)) as [vs|e] eqn:Hf; simpl.
  - intros Hrest. unfold bind at 1.
    rewrite (restore_facet params (key f) sel vs w Hsel Hf).
    apply IH; [|done]. intros g Hg. simpl. rewrite lookup_insert_is_Some.
    destruct (decide (key f = key g)); [by left|right].
    split; [done|]. apply Hok. by right.
  - intros _. unfold bind at 1 2. unfold with_set at 1. rewrite Hsel.
    unfold listed_values in Hf.
    destruct (params_get params (key f)) as [val|]; [|done].
    case_bool_decide; [done|].
    pose proof (decode_all_error _ _ Hf) as ->.
    assert (Hrun : outcome (forEach (split val ",") (add_decoded (key f))
                     (set_state (<[key f := set_clear sel]> (state w)) w))
                   = Some URIError).
    { apply (forEach_add_decoded_fails _ _ _ []); [|done].
      simpl. by rewrite lookup_insert_eq. }
    by destruct (forEach (split val ",") (add_decoded (key f)) _).
Qed.

(** X6.  [parseHashToState] on a fragment with the sentinel, on a page where
    every facet has its [Set].  When every value listed for a facet can be
    decoded, the loop over the checkboxes runs on the new selections: with
    checkboxes keyed as [buildFiltersFragment] keys them, every checkbox ends
    checked exactly when its value is in the selection of its facet (a
    checkbox keyed by a name of [Object.prototype] would stop the loop with a
    [TypeError], those before it being written).  When some value cannot be
    decoded the call throws a [URIError] and the checkboxes are left as they
    were, ticks included. *)
Theorem parse_restores_checkboxes (w : App) :
  state_ok (state w) →
  startsWith (location_hash w) "#!" = true →
  let params := hash_params (location_hash w) in
  let after := final (parseHashToState w) in
  if forallb (λ f, completes (listed_values params (key f))) FACETS
  then checkboxes after = (restore_inputs (state after) (checkboxes w)).1
       ∧ (ordinary (checkboxes w) →
          checkboxes after = map (restore_checked (state after)) (checkboxes w))
  else outcome (parseHashToState w) = Some URIError
       ∧ checkboxes after = checkboxes w.
Proof.
  intros Hok Hs params after. unfold after.
  rewrite parseHashToState_unfold, Hs. fold params.
  pose proof (restore_loop_final params w) as Hloop. cbv zeta in Hloop.
  assert (Hsets : ∀ f, f ∈ FACETS → is_Some (state w !! key f))
    by (intros f Hf; by apply state_ok_lookup).
  destruct (forallb _ FACETS) eqn:Hall.
  - assert (Hvs : ∀ f, f ∈ FACETS → ∃ vs, listed_values params (key f) = Normal vs).
    { intros f Hf. apply list_elem_of_In in Hf.
      apply (proj1 (forallb_forall _ _) Hall) in Hf.
      destruct (listed_values params (key f)) as [vs|]; [by exists vs|done]. }
    pose proof (restore_loop params FACETS w Hsets Hvs) as Hrun.
    assert (Hboxes : checkboxes (final (restore_from params w))
                     = (restore_inputs (state (final (restore_from params w)))
                                       (checkboxes w)).1).
    { rewrite restore_from_state by done.
      unfold restore_from, bind at 1. rewrite Hrun.
      set (w1 := set_state _ w). change (checkboxes w) with (checkboxes w1).
      change (foldl _ (state w) FACETS) with (state w1).
      unfold bind, restore_checkboxes.
      destruct (restore_inputs (state w1) (checkboxes w1)) as [inputs [e|]];
        simpl; [done|].
      destruct (params_get params "country") as [c|]; [|done].
      case_bool_decide; [done|].
      exact (preserves_showCountryModal checkboxes
               (λ _ _, eq_refl) (λ _ _, eq_refl) c (set_checkboxes inputs w1)). }
    split; [done|]. intros Hord. rewrite Hboxes.
    by rewrite restore_inputs_ordinary.
  - pose proof (restore_loop_fails params FACETS w Hsets Hall) as Hfail.
    unfold restore_from, bind.
    destruct (forEach FACETS _ w) as [[] w1|e w1]; simpl in *; [done|].
    split; [done|]. by rewrite Hloop.
Qed.

Lemma parse_restores_checkboxes_witness :
  let w := page scenario (init_state ∅) "#!driving=right&cameras=%ZZ" in
  let params := hash_params (location_hash w) in
  let after := final (parseHashToState w) in
  (state_ok (state w) ∧ startsWith (location_hash w) "#!" = true)
  ∧ if forallb (λ f, completes (listed_values params (key f))) FACETS
    then checkboxes after = (restore_inputs (state after) (checkboxes w)).1
         ∧ (ordinary (checkboxes w) →
            checkboxes after = map (restore_checked (state after)) (checkboxes w))
    else outcome (parseHashToState w) = Some URIError
         ∧ checkboxes after = checkboxes w.
Proof.
  intros w params after.
  assert (H1 : state_ok (state w)) by (apply (bool_decide_unpack _); vm_compute; exact I).
  assert (H2 : startsWith (location_hash w) "#!" = true) by reflexivity.
  split; [done|].
  exact (parse_restores_checkboxes w H1 H2).
Defined.

(** A fragment that can be decoded ticks the checkbox of a restored value and
    unticks the others; a checkbox keyed by [constructor] stops the loop. *)
Example parse_restores_checkboxes_example :
  let box k v b := {| facetKey := k; value := v; checked := b |} in
  let w := set_checkboxes [box "driving" "left" false; box "driving" "right" true]
             (page scenario (init_state ∅) "#!driving=left") in
  let w' := set_checkboxes [box "driving" "left" false; box "constructor" "x" false;
                            box "driving" "right" true]
              (page scenario (init_state ∅) "#!driving=left") in
  (outcome (parseHashToState w) = None
   ∧ checkboxes (final (parseHashToState w))
     = [box "driving" "left" true; box "driving" "right" false])
  ∧ (outcome (parseHashToState w') = Some TypeError
     ∧ checkboxes (final (parseHashToState w'))
       = [box "driving" "left" true; box "constructor" "x" false;
          box "driving" "right" true]).
Proof. intros box w w'. repeat split; reflexivity. Qed.

(** ** [onFacetToggle] *)

Lemma onFacetToggle_run el sel w :
  state w !! facetKey el = Some sel →
  let st' := <[facetKey el := toggled sel el]> (state w) in
  onFacetToggle el w
  = render (set_location_hash (written_fragment st' None) (set_state st' w)).
Proof.
  intros Hsel st'. unfold onFacetToggle, bind at 1. unfold with_set. rewrite Hsel.
  unfold bind at 1. by rewrite serializeStateToHash_written.
Qed.

(** X7.  [onFacetToggle] on a checkbox whose facet has no [Set] throws a
    [TypeError] before it changes anything.  Otherwise it adds the value to
    the facet's selection (checked) or removes it (unchecked), leaves the
    other facets alone, writes the fragment of the new state, renders the
    matches of the new state, and writes no checkbox: a second checkbox with
    the same facet and value keeps its own tick. *)
Theorem onFacetToggle_effect (w : App) (el : Checkbox) :
  match state w !! facetKey el with
  | None => onFacetToggle el w = Raise TypeError w
  | Some sel =>
      let st' := <[facetKey el := toggled sel el]> (state w) in
      let after := final (onFacetToggle el w) in
      state after = st'
      ∧ location_hash after = written_fragment st' None
      ∧ checkboxes after = checkboxes w
      ∧ modal after = modal w
      ∧ ∀ ms, render_matches (metas w) st' = Normal ms → matches after = ms
  end.
Proof.
  destruct (state w !! facetKey el) as [sel|] eqn:Hsel.
  - intros st' after. unfold after.
    rewrite (onFacetToggle_run el sel w Hsel). cbv zeta. fold st'.
    destruct (render_final (set_location_hash (written_fragment st' None)
                                              (set_state st' w)))
      as (_ & H1 & H2 & H3 & H4 & _ & _ & _ & H5).
    by rewrite H1, H2, H3, H4.
  - unfold onFacetToggle, bind, with_set. by rewrite Hsel.
Qed.
(** * Handlers, events and links *)

Lemma facet_param_empty st facets :
  (∀ f, f ∈ facets → st !! key f = Some []) → omap (facet_param st) facets = [].
Proof.
  induction facets as [|f facets IH]; intros H; simpl; [done|].
  unfold facet_param at 1. rewrite (H f) by left. simpl.
  apply IH. intros g Hg. apply H. by right.
Qed.

Lemma written_fragment_empty st : all_empty st → written_fragment st None = "#!".
Proof.
  intros H. unfold written_fragment.
  rewrite facet_param_empty; [done|]. intros f Hf. by apply all_empty_lookup.
Qed.

Lemma clearAll_run w :
  state_ok (state w) →
  clearAll w
  = render (set_location_hash "#!"
              (set_checkboxes (map uncheck (checkboxes w))
                 (set_state (init_state (state w)) w))).
Proof.
  intros Hok. unfold clearAll, bind at 1.
  rewrite forEach_clear by (intros f Hf; by apply state_ok_lookup).
  fold (init_state (state w)).
  unfold bind at 1. unfold modify at 1. unfold bind at 1.
  rewrite serializeStateToHash_written. cbn [state set_checkboxes set_state].
  by rewrite written_fragment_empty by apply init_state_all_empty.
Qed.

(** ** [clearAll] *)

(** X8.  On a page where every facet has its [Set], [clearAll] empties
    every selection, unticks every checkbox, writes the bare sentinel [#!] as
    the fragment, so that a focused country is dropped from the link too, and
    renders the whole dataset.  It leaves the modal as it is. *)
Theorem clearAll_resets (w : App) :
  state_ok (state w) →
  let after := final (clearAll w) in
  all_empty (state after)
  ∧ checkboxes after = map uncheck (checkboxes w)
  ∧ location_hash after = "#!"
  ∧ modal after = modal w
  ∧ matches after = all_matches (metas w).
Proof.
  intros Hok after. unfold after. rewrite clearAll_run by done.
  set (w1 := set_location_hash _ _).
  assert (Hms : render_matches (metas w1) (state w1) = Normal (all_matches (metas w)))
    by (apply render_matches_all_empty, init_state_all_empty).
  destruct (render_final w1) as (H0 & H1 & H2 & H3 & H4 & _ & _ & _ & H5).
  rewrite H1, H2, H3, H4, (H5 _ Hms).
  repeat split; try done. apply init_state_all_empty.
Qed.



Lemma clearAll_resets_witness :
  let w := page scenario (example_state "driving" ["left"]) "#!driving=left" in
  let after := final (clearAll w) in
  state_ok (state w)
  ∧ all_empty (state after)
  ∧ checkboxes after = map uncheck (checkboxes w)
  ∧ location_hash after = "#!"
  ∧ modal after = modal w
  ∧ matches after = all_matches (metas w).
Proof.
  intros w after.
  assert (H1 : state_ok (state w)) by (apply (bool_decide_unpack _); vm_compute; exact I).
  split; [done|].
  exact (clearAll_resets w H1).
Defined.

(** ** Ticking and unticking *)



Lemma keeps_handle ev : keeps_state_ok (handle ev).
Proof.
  destruct ev; simpl.
  - apply keeps_onFacetToggle.
  - apply keeps_clearAll.
  - apply keeps_showCountryModal.
  - apply keeps_bind; [apply keeps_gets|]. intros n.
    apply keeps_bind.
    + apply keeps_forEach. intros _. apply keeps_serializeStateToHash.
    + intros _. by apply keeps_modify.
  - apply keeps_bind; [by apply keeps_modify|]. intros _. apply keeps_render.
  - apply keeps_render.
Qed.

(** ** An invariant of the page *)

(** X10.  Whatever fragment the page is opened with, also one that makes
    [parseHashToState] throw, and whatever events follow, every facet keeps
    its [Set]: no handler ever finds [state[key]] undefined for a facet of
    [FACETS].  This holds on every host and with every translation file. *)
Theorem facet_sets_survive_every_event
  (h : Host) (data : Metas) (tr : TrMap) (inputs : list Checkbox)
  (fragment : string) (evs : list Event) :
  state_ok (state (run evs (final (boot h data tr inputs fragment)))).
Proof.
  unfold run. generalize (boot_state_ok h data tr inputs fragment).
  generalize (final (boot h data tr inputs fragment)).
  induction evs as [|ev evs IH]; intros w Hok; simpl; [done|].
  apply IH. by apply keeps_handle.
Qed.

Lemma matches_from_ext facets st st' country :
  (∀ f, f ∈ facets → st !! key f = st' !! key f) →
  matches_from facets st country = matches_from facets st' country.
Proof.
  induction facets as [|f facets IH]; intros H; simpl; [done|].
  rewrite <- (H f) by left. rewrite IH; [done|].
  intros g Hg. apply H. by right.
Qed.

Lemma render_matches_ext C st st' :
  (∀ f, f ∈ FACETS → st !! key f = st' !! key f) →
  render_matches C st = render_matches C st'.
Proof.
  intros H. induction C as [|[code c] C IH]; simpl; [done|].
  unfold matchesAllFilters. by rewrite (matches_from_ext FACETS st st' c H), IH.
Qed.

Lemma restore_from_run params w :
  state_ok (state w) →
  (∀ f, f ∈ FACETS → ∃ vs, listed_values params (key f) = Normal vs) →
  ordinary (checkboxes w) →
  let st' := foldl (λ acc f, <[key f := selection_of params (key f)]> acc)
                   (state w) FACETS in
  let w' := set_checkboxes (map (restore_checked st') (checkboxes w))
              (set_state st' w) in
  restore_from params w
  = match params_get params "country" with
    | Some countryCode =>
        if bool_decide (countryCode = "") then Ret tt w'
        else showCountryModal countryCode false w'
    | None => Ret tt w'
    end.
Proof.
  intros Hok Hvs Hord st' w'.
  assert (Hsets : ∀ f, f ∈ FACETS → is_Some (state w !! key f))
    by (intros f Hf; by apply state_ok_lookup).
  pose proof (restore_loop params FACETS w Hsets Hvs) as Hrun.
  unfold restore_from, bind at 1. rewrite Hrun. fold st'.
  unfold bind at 1. rewrite restore_checkboxes_ordinary by done.
  change (set_checkboxes _ (set_state st' w)) with w'.
  destruct (params_get params "country") as [c|]; [|done].
  by case_bool_decide.
Qed.

(** ** Links *)

(** X11.  The fragment [serializeStateToHash] writes is a link to the page
    as it is.  Take a page whose selected values are plain (not empty, well
    formed, without comma or percent sign) and, if a country is given, one
    for which the lookup of [showCountryModal] finds a record whose modal
    body can be written.  Opening the page afresh with the written fragment,
    on the same host and with the same translations and checkboxes keyed as
    [buildFiltersFragment] keys them, restores the selection of every facet,
    ticks exactly the checkboxes of the selected values, renders the same
    matches and shows the modal of what the lookup finds for the code: the
    record stored under the upper-cased code or, failing that, under the code
    as written, a member of [Object.prototype] included; no modal when no
    country was written or nothing is found. *)
Theorem link_reopens_the_page
  (w : App) (inputs : list Checkbox) (countryCode : option string) :
  state_ok (state w) → plain_state (state w) →
  (∀ c, countryCode = Some c → utf8 c) →
  (∀ c country, focused countryCode = Some c →
                found (host w) (metas w) c = Some country → renders country) →
  ordinary inputs →
  let link := location_hash (final (serializeStateToHash countryCode w)) in
  let reopened := final (boot (host w) (metas w) (trMap w) inputs link) in
  (∀ f, f ∈ FACETS → state reopened !! key f = state w !! key f)
  ∧ checkboxes reopened = map (restore_checked (state reopened)) inputs
  ∧ modal reopened
    = (c ← focused countryCode; country ← found (host w) (metas w) c;
       Some {| modal_code := toUpperCase (host w) c; modal_country := country |})
  ∧ ∀ ms, render_matches (metas w) (state w) = Normal ms → matches reopened = ms.
Proof.
  intros Hok Hplain Hc Hrenders Hord link reopened.
  assert (Hlink : link = written_fragment (state w) countryCode)
    by (unfold link; by rewrite serializeStateToHash_written).
  set (w0 := fresh_page (host w) (metas w) (trMap w) inputs link).
  set (pairs := omap (facet_pair (state w)) FACETS ++ country_pair countryCode).
  assert (Hparams : hash_params (location_hash w0) = pairs).
  { change (location_hash w0) with link. rewrite Hlink.
    by apply written_fragment_params. }
  assert (Hlisted : ∀ f, f ∈ FACETS → ∃ vs, listed_values pairs (key f) = Normal vs).
  { intros f Hf. destruct (state_ok_lookup _ f Hok Hf) as [sel Hsel].
    exists sel. by apply written_listed. }
  assert (Hok0 : state_ok (state w0))
    by (apply all_empty_ok, init_state_all_empty).
  set (st' := foldl (λ acc f, <[key f := selection_of pairs (key f)]> acc)
                    (state w0) FACETS).
  set (w' := set_checkboxes (map (restore_checked st') inputs) (set_state st' w0)).
  assert (Hst' : ∀ f, f ∈ FACETS → st' !! key f = state w !! key f).
  { intros f Hf. destruct (state_ok_lookup _ f Hok Hf) as [sel Hsel].
    unfold st'. rewrite (restore_from_lookup pairs _ f sel Hf)
      by (by apply written_listed).
    rewrite Hsel. f_equal. apply set_of_NoDup. by destruct (Hplain f sel Hf Hsel). }
  assert (Hcountry : params_get pairs "country" = focused countryCode)
    by apply written_country.
  assert (Hparse : ∃ w1, parseHashToState w0 = Ret tt w1
            ∧ metas w1 = metas w ∧ state w1 = st'
            ∧ checkboxes w1 = map (restore_checked st') inputs
            ∧ modal w1
              = (c ← focused countryCode; country ← found (host w) (metas w) c;
                 Some {| modal_code := toUpperCase (host w) c;
                         modal_country := country |})).
  { rewrite parseHashToState_unfold.
    replace (startsWith (location_hash w0) "#!") with true
      by (change (location_hash w0) with link; by rewrite Hlink).
    rewrite Hparams, (restore_from_run pairs w0 Hok0 Hlisted Hord), Hcountry.
    fold st'. change (checkboxes w0) with inputs. fold w'.
    destruct (focused countryCode) as [c|] eqn:Hfoc; simpl.
    - assert (c ≠ "").
      { unfold focused in Hfoc. destruct countryCode as [c'|]; [|done].
        case_bool_decide; [done|]. by injection Hfoc as <-. }
      rewrite bool_decide_eq_false_2 by done.
      rewrite showCountryModal_run.
      change (metas w') with (metas w). change (host w') with (host w).
      destruct (found (host w) (metas w) c) as [country|] eqn:Hfound.
      + pose proof (Hrenders c country eq_refl Hfound) as Hr.
        unfold renders in Hr. rewrite Hr. by eexists.
      + by eexists.
    - by exists w'. }
  destruct Hparse as (w1 & Hrun & Hm1 & Hs1 & Hb1 & Hmod1).
  assert (Hre : reopened = final (render w1)).
  { unfold reopened, boot.
    fold (fresh_page (host w) (metas w) (trMap w) inputs link). fold w0.
    unfold bind at 1. by rewrite Hrun. }
  rewrite Hre.
  destruct (render_final w1) as (H0 & H1 & H2 & H3 & H4 & _ & _ & _ & H5).
  rewrite H1, H3, H4, Hs1, Hb1, Hmod1. repeat split; try done.
  intros ms Hms. apply H5. rewrite Hm1, Hs1.
  by rewrite (render_matches_ext (metas w) st' (state w) Hst').
Qed.

Lemma link_reopens_the_page_witness :
  let record : Country :=
    {[ "name" := Scalar "Japan"; "cameras" := Sequence ["Gen 4"; "blur"] ]} in
  let w := page [("JP", record)] (example_state "cameras" ["Gen 4"]) "" in
  let inputs := [ {| facetKey := "cameras"; value := "Gen 4"; checked := false |};
                  {| facetKey := "cameras"; value := "blur"; checked := true |} ] in
  let link := location_hash (final (serializeStateToHash (Some "jp") w)) in
  let reopened := final (boot (host w) (metas w) (trMap w) inputs link) in
  (state_ok (state w) ∧ plain_state (state w)
   ∧ (∀ c, Some "jp" = Some c → utf8 c)
   ∧ (∀ c country, focused (Some "jp") = Some c →
                   found (host w) (metas w) c = Some country → renders country)
   ∧ ordinary inputs)
  ∧ (∀ f, f ∈ FACETS → state reopened !! key f = state w !! key f)
  ∧ checkboxes reopened = map (restore_checked (state reopened)) inputs
  ∧ modal reopened
    = (c ← focused (Some "jp"); country ← found (host w) (metas w) c;
       Some {| modal_code := toUpperCase (host w) c; modal_country := country |})
  ∧ ∀ ms, render_matches (metas w) (state w) = Normal ms → matches reopened = ms.
Proof.
  intros record w inputs link reopened.
  assert (H1 : state_ok (state w)) by (apply (bool_decide_unpack _); vm_compute; exact I).
  assert (H2 : plain_state (state w)).
  { intros f sel Hf Hsel.
    repeat (apply elem_of_cons in Hf as [->|Hf]); try (by apply elem_of_nil in Hf);
      vm_compute in Hsel; injection Hsel as <-;
      (split; [apply (bool_decide_unpack _); vm_compute; exact I|]);
      repeat (apply Forall_cons; split;
              [split; [utf8_string|split; [done|split; reflexivity]]|]);
      constructor. }
  assert (H3 : ∀ c, Some "jp" = Some c → utf8 c).
  { intros c [= <-]. utf8_string. }
  assert (H4 : ∀ c country, focused (Some "jp") = Some c →
                 found (host w) (metas w) c = Some country → renders country).
  { intros c country [= <-] [= <-]. reflexivity. }
  assert (H5 : ordinary inputs) by (repeat constructor).
  split; [done|].
  exact (link_reopens_the_page w inputs (Some "jp") H1 H2 H3 H4 H5).
Defined.

(** A link with a code the dataset has no record for: [country=constructor]
    opens the modal of the inherited member, titled [CONSTRUCTOR] and named
    [Object]; [country=xx] opens none. *)
Example link_reopens_the_page_example :
  let w := page [("DE", DE)] (init_state ∅) "" in
  let link c := location_hash (final (serializeStateToHash (Some c) w)) in
  let reopened c := final (boot (host w) (metas w) (trMap w) [] (link c)) in
  link "constructor" = "#!country=constructor"
  ∧ modal (reopened "constructor")
    = Some {| modal_code := "CONSTRUCTOR";
              modal_country := {[ "name" := Scalar "Object" ]} |}
  ∧ modal (reopened "de") = Some {| modal_code := "DE"; modal_country := DE |}
  ∧ modal (reopened "xx") = None.
Proof. intros w link reopened. repeat split; reflexivity. Qed.

(** ** A click on the map *)









(** * The values offered for a facet *)

Lemma foldl_set_add_keeps_NoDup (vs : list string) (set : JsSet) :
  NoDup set → NoDup (foldl set_add set vs).
Proof.
  revert set. induction vs as [|v vs IH]; intros set H; simpl; [done|].
  by apply IH, set_add_NoDup.
Qed.

Lemma elem_of_collect k set country x :
  x ∈ collect k set country ↔ x ∈ set ∨ holds country k x.
Proof.
  unfold collect, holds. destruct (country !! k) as [[s|arr]|]; simpl.
  - case_bool_decide; simpl; [tauto|].
    rewrite elem_of_set_add. tauto.
  - apply (elem_of_foldl_set_add set arr x).
  - tauto.
Qed.

Lemma collect_NoDup k set country : NoDup set → NoDup (collect k set country).
Proof.
  intros H. unfold collect.
  destruct (country !! k) as [[s|arr]|]; simpl;
    [|by apply foldl_set_add_keeps_NoDup|done].
  case_bool_decide; simpl; [done|]. by apply set_add_NoDup.
Qed.

Lemma elem_of_foldl_collect k (cs : list Country) set x :
  x ∈ foldl (collect k) set cs ↔ x ∈ set ∨ ∃ c, c ∈ cs ∧ holds c k x.
Proof.
  revert set. induction cs as [|c cs IH]; intros set; simpl.
  - split; [by left|]. intros [?|(? & H & _)]; [done|]. by apply elem_of_nil in H.
  - rewrite IH, elem_of_collect. split.
    + intros [[?|?]|(c' & ? & ?)]; [by left|right; exists c|right; exists c'].
      * split; [left|done].
      * split; [by right|done].
    + intros [?|(c' & [->|?]%elem_of_cons & ?)]; [by left; left|by left; right|].
      right. by exists c'.
Qed.

Lemma foldl_collect_NoDup k (cs : list Country) set :
  NoDup set → NoDup (foldl (collect k) set cs).
Proof.
  revert set. induction cs as [|c cs IH]; intros set H; simpl; [done|].
  by apply IH, collect_NoDup.
Qed.

Lemma elem_of_getAllFacetValues m k v :
  v ∈ getAllFacetValues m k ↔ ∃ c, c ∈ m.*2 ∧ holds c k v.
Proof.
  unfold getAllFacetValues. rewrite elem_of_foldl_collect, elem_of_nil. tauto.
Qed.

(** X13.  [getAllFacetValues] returns exactly the values the records of the
    dataset hold for the key, the elements of their arrays and their non-empty
    strings, each of them once. *)
Theorem offered_values_are_the_values_held (m : Metas) (k v : string) :
  (v ∈ getAllFacetValues m k ↔ ∃ c, c ∈ m.*2 ∧ holds c k v)
  ∧ NoDup (getAllFacetValues m k).
Proof.
  split; [apply elem_of_getAllFacetValues|].
  apply foldl_collect_NoDup. constructor.
Qed.

(** X14.  No checkbox is dead: a value [getAllFacetValues] offers for a facet,
    selected alone, is matched by at least one record of the dataset. *)
Theorem every_offered_value_has_a_match (m : Metas) (f : Facet) (v : string) :
  f ∈ FACETS → v ∈ getAllFacetValues m (key f) →
  ∃ c, c ∈ m.*2
    ∧ matchesAllFilters (example_state (key f) [v]) c = Normal true.
Proof.
  intros Hf Hv.
  apply elem_of_getAllFacetValues in Hv as (c & Hc & Hh).
  exists c. split; [done|].
  assert (Hok : state_ok (example_state (key f) [v])).
  { apply state_ok_insert, all_empty_ok, init_state_all_empty. }
  apply matchesAllFilters_true_iff; [done|].
  intros g sel Hg. unfold example_state.
  destruct (decide (key g = key f)) as [Heq|Hne].
  - rewrite Heq, lookup_insert_eq. intros [= <-].
    unfold facet_passes, holds in *. simpl.
    destruct (c !! key f) as [[s|arr]|]; simpl; [| |done].
    + destruct Hh as [Hs ->]. rewrite bool_decide_eq_false_2 by done. simpl.
      unfold set_has. apply bool_decide_eq_true_2. left.
    + unfold includes. rewrite bool_decide_eq_true_2 by done. done.
  - rewrite lookup_insert_ne by done.
    rewrite (all_empty_lookup _ g (init_state_all_empty ∅) Hg). by intros [= <-].
Qed.

Lemma every_offered_value_has_a_match_witness :
  let f := {| key := "cameras"; type := "array" |} in
  (f ∈ FACETS ∧ "mirror" ∈ getAllFacetValues scenario (key f))
  ∧ ∃ c, c ∈ scenario.*2
      ∧ matchesAllFilters (example_state (key f) ["mirror"]) c = Normal true.
Proof.
  intros f.
  assert (H1 : f ∈ FACETS) by left.
  assert (H2 : "mirror" ∈ getAllFacetValues scenario (key f)).
  { apply (bool_decide_unpack _). vm_compute. exact I. }
  split; [done|].
  exact (every_offered_value_has_a_match scenario f "mirror" H1 H2).
Defined.
(** * Translation and rendering *)

(** ** [translate] *)




(** Without a translation file a key is its own translation; with one, a
    name of [Object.prototype] that has no entry is translated as the
    inherited member. *)
Example translation_of_constructor :
  translate no_translation "constructor" = Text "constructor"
  ∧ translate {| ui := Some {[ "title" := "Titel" ]}; facets := None; values := None |}
              "constructor" = Member "constructor"
  ∧ translate {| ui := Some {[ "title" := "Titel" ]}; facets := None; values := None |}
              "title" = Text "Titel"
  ∧ translate {| ui := Some {[ "title" := "" ]}; facets := None; values := None |}
              "title" = Text "title".
Proof. repeat split; reflexivity. Qed.

(** ** The modal body and the cards *)

(** X16.  The body of the modal can be written exactly when none of the nine
    facets of the record is a string that is not empty; otherwise
    [showCountryModal] stops with a [TypeError] where it writes the body.
    Neither the host nor the translations change that. *)
Theorem modal_body_needs_arrays
  (h : Host) (trMap : TrMap) (code : string) (country : Country) :
  if forallb (λ k, negb (bare_string (country !! k))) modal_keys
  then ∃ html, modal_body h trMap code country = Normal html
  else modal_body h trMap code country = Throw TypeError.
Proof. apply modal_body_outcome. Qed.

(** X17.  The card of a match can be written exactly when its [code] is a
    string and none of its eight facets is a string that is not empty;
    otherwise the callback of [renderCountryList] throws a [TypeError].  The
    years are not among the eight: a record rendered in the list can still
    fail in the modal.  Neither the host nor the translations change that. *)
Theorem country_card_needs_arrays (h : Host) (trMap : TrMap) (c : Country) :
  (if match c !! "code" with Some (Scalar _) => true | _ => false end
      && forallb (λ k, negb (bare_string (c !! k))) card_keys
   then ∃ html, country_card h trMap c = Normal html
   else country_card h trMap c = Throw TypeError)
  ∧ ∀ v, country_card h trMap (<["years" := v]> c) = country_card h trMap c.
Proof.
  split; [apply country_card_outcome|].
  intros v. unfold country_card, card_keys. simpl.
  by rewrite !lookup_insert_ne by done.
Qed.
(** * [slug] *)

Lemma lower_char_slug c : slug_source_char c = true → slug_char (lower_char c) = true.
Proof. each_char c; by vm_compute. Qed.

Lemma lower_char_id c : slug_char c = true → lower_char c = c.
Proof. each_char c; by vm_compute. Qed.

Lemma slug_char_source c : slug_char c = true → slug_source_char c = true.
Proof. each_char c; by vm_compute. Qed.

Lemma slug_char_not_space c s : slug_char c = true → white_space (String c s) = None.
Proof.
  intros Hc. destruct s as [|b1 [|b2 s]]; revert Hc; each_char c; by vm_compute.
Qed.

Lemma remove_others_ascii s : ascii_only (remove_others s) = true.
Proof.
  unfold ascii_only. induction s as [|c s IH]; simpl; [done|].
  destruct (slug_source_char c) eqn:Hc; [|done].
  cbn [forall_chars]. rewrite IH, andb_true_r.
  revert Hc. each_char c; by vm_compute.
Qed.

(** The text [slug] lower-cases has ASCII characters only, so the host has
    no say. *)
Lemma slug_lower_ascii h s :
  slug h s = lower_ascii (remove_others (replace_spaces 0 false s)).
Proof. unfold slug, toLowerCase. by rewrite remove_others_ascii. Qed.

Lemma lower_ascii_remove_others s :
  forall_chars slug_char (lower_ascii (remove_others s)) = true.
Proof.
  induction s as [|c s IH]; simpl; [done|].
  destruct (slug_source_char c) eqn:Hc; simpl; [|done].
  by rewrite lower_char_slug.
Qed.

Lemma slug_fixed h s : forall_chars slug_char s = true → slug h s = s.
Proof.
  rewrite slug_lower_ascii. induction s as [|c s IH]; simpl; [done|].
  intros [Hc Hs]%andb_true_iff.
  pose proof (slug_char_not_space c s Hc) as Hw. simpl in Hw. rewrite Hw.
  simpl. rewrite slug_char_source by done. simpl.
  by rewrite lower_char_id, IH.
Qed.

(** X18.  A slug is made of lower-case ASCII letters, digits, hyphens and
    underscores only, so it can stand in an element id whatever the value
    was, and [slug] leaves a slug as it is.  It is the same on every host:
    what is lower-cased has ASCII characters only. *)
Theorem slug_is_a_stable_identifier (h : Host) (s : string) :
  forall_chars slug_char (slug h s) = true
  ∧ slug h (slug h s) = slug h s
  ∧ ∀ h', slug h' s = slug h s.
Proof.
  assert (H : forall_chars slug_char (slug h s) = true)
    by (rewrite slug_lower_ascii; apply lower_ascii_remove_others).
  split; [done|]. split; [by apply slug_fixed|].
  intros h'. by rewrite !slug_lower_ascii.
Qed.
(** * The theme *)

Lemma theme_after_setup env :
  getCurrentTheme (setupThemeToggle env) = currentTheme (setupThemeToggle env).
Proof.
  unfold getCurrentTheme. simpl. unfold or_else.
  destruct (stored env) as [s|], (attribute env) as [s'|];
    repeat case_bool_decide; done.
Qed.

(** X19.  After [setupThemeToggle], [initMap] and any number of clicks on
    the toggle, [getCurrentTheme] returns the theme the toggle holds, and the
    attribute of the document, the tile layer and the class of the button
    are those of that theme.  From the first click on the theme is [light] or
    [dark] and is the one stored. *)
Theorem theme_is_read_as_set (env : ThemeEnv) (n : nat) :
  let env' := after_clicks n env in
  getCurrentTheme env' = currentTheme env'
  ∧ attribute env' = Some (currentTheme env')
  ∧ tile_url env' = TILE_URLS (currentTheme env')
  ∧ toggle_class env' = updateThemeIcon (currentTheme env')
  ∧ match n with
    | O => stored env' = stored env
    | S _ => stored env' = Some (currentTheme env')
             ∧ (currentTheme env' = "light" ∨ currentTheme env' = "dark")
    end.
Proof.
  unfold after_clicks. cbv zeta. destruct n as [|n].
  - pose proof (theme_after_setup env) as H.
    change (Nat.iter 0 themeToggle_click (initMap (setupThemeToggle env)))
      with (initMap (setupThemeToggle env)).
    change (getCurrentTheme (initMap (setupThemeToggle env)))
      with (getCurrentTheme (setupThemeToggle env)).
    change (tile_url (initMap (setupThemeToggle env)))
      with (TILE_URLS (getCurrentTheme (setupThemeToggle env))).
    change (currentTheme (initMap (setupThemeToggle env)))
      with (currentTheme (setupThemeToggle env)).
    by rewrite H.
  - change (Nat.iter (S n) themeToggle_click (initMap (setupThemeToggle env)))
      with (themeToggle_click
              (Nat.iter n themeToggle_click (initMap (setupThemeToggle env)))).
    set (prev := Nat.iter n themeToggle_click _).
    unfold getCurrentTheme, themeToggle_click.
    cbn [stored attribute currentTheme toggle_class tile_url].
    destruct (bool_decide (currentTheme prev = "light"));
      repeat split; try done; by (left + right).
Qed.

(** X20.  A theme found in [localStorage] or on the document that is
    neither [light] nor [dark] is kept by [setupThemeToggle].  The table of
    tile URLs has no entry for it: the tile layer is made with [undefined],
    or, when the theme is a name of [Object.prototype], with the member the
    table inherits under that name.  The button has the class of the dark
    theme and the matched countries the colour of the light one, until the
    first click, which sets [light]. *)
Theorem unknown_theme_is_half_dark (env : ThemeEnv) :
  let env' := after_clicks 0 env in
  currentTheme env' ≠ "light" → currentTheme env' ≠ "dark" →
  tile_urls !! currentTheme env' = None
  ∧ tile_url env'
    = (if inherited (currentTheme env') then Inherited (currentTheme env')
       else Undefined)
  ∧ toggle_class env' = "btn btn-warning me-2"
  ∧ matchedStyle env' = "#1d3b8b"
  ∧ currentTheme (after_clicks 1 env) = "light".
Proof.
  intros env' Hl Hd.
  pose proof (theme_after_setup env) as H.
  unfold env', after_clicks in *.
  change (Nat.iter 0 themeToggle_click (initMap (setupThemeToggle env)))
    with (initMap (setupThemeToggle env)) in *.
  change (Nat.iter 1 themeToggle_click (initMap (setupThemeToggle env)))
    with (themeToggle_click (initMap (setupThemeToggle env))).
  change (currentTheme (initMap (setupThemeToggle env)))
    with (currentTheme (setupThemeToggle env)) in *.
  change (tile_url (initMap (setupThemeToggle env)))
    with (TILE_URLS (getCurrentTheme (setupThemeToggle env))).
  change (toggle_class (initMap (setupThemeToggle env)))
    with (updateThemeIcon (currentTheme (setupThemeToggle env))).
  change (matchedStyle (initMap (setupThemeToggle env)))
    with (if bool_decide (getCurrentTheme (setupThemeToggle env) = "dark")
          then "#306c01" else "#1d3b8b").
  change (currentTheme (themeToggle_click (initMap (setupThemeToggle env))))
    with (if bool_decide (currentTheme (setupThemeToggle env) = "light")
          then "dark" else "light").
  rewrite H. unfold TILE_URLS, js_get, updateThemeIcon.
  assert (Hnone : tile_urls !! currentTheme (setupThemeToggle env) = None).
  { unfold tile_urls. rewrite lookup_insert_ne by done.
    by apply lookup_singleton_ne. }
  rewrite Hnone. by rewrite !bool_decide_eq_false_2 by done.
Qed.

Lemma unknown_theme_is_half_dark_witness :
  let env := {| stored := Some "auto"; attribute := None; currentTheme := "";
                toggle_class := ""; tile_url := Undefined |} in
  let env' := after_clicks 0 env in
  (currentTheme env' ≠ "light" ∧ currentTheme env' ≠ "dark")
  ∧ tile_urls !! currentTheme env' = None
  ∧ tile_url env'
    = (if inherited (currentTheme env') then Inherited (currentTheme env')
       else Undefined)
  ∧ toggle_class env' = "btn btn-warning me-2"
  ∧ matchedStyle env' = "#1d3b8b"
  ∧ currentTheme (after_clicks 1 env) = "light".
Proof.
  intros env env'.
  assert (H1 : currentTheme env' ≠ "light") by (vm_compute; discriminate).
  assert (H2 : currentTheme env' ≠ "dark") by (vm_compute; discriminate).
  split; [done|].
  exact (unknown_theme_is_half_dark env H1 H2).
Defined.

(** The tile layer for three stored themes: a URL of the table, nothing, and
    the constructor every object inherits. *)
Example tile_layer_of_stored_theme :
  let env theme := {| stored := Some theme; attribute := None; currentTheme := "";
                      toggle_class := ""; tile_url := Undefined |} in
  tile_url (after_clicks 0 (env "dark"))
  = Own "https://{s}.basemaps.cartocdn.com/dark_nolabels/{z}/{x}/{y}.png"
  ∧ tile_url (after_clicks 0 (env "auto")) = Undefined
  ∧ tile_url (after_clicks 0 (env "constructor")) = Inherited "constructor".
Proof. intros env. repeat split; reflexivity. Qed.
